(** * kkr live downloader: scheduler, finalize latch and reassembly planner

    A shallow embedding of [src/core/live_downloader.ts] (class
    [LiveDownloader]).  The object's fields are a record, the event handlers
    registered in [start] are a step function over an explicit world state,
    [checkQueue] is the recursive queue-advance function of the source, and
    [beforeExit]/[clean] run in a small state-and-effect monad whose
    completions distinguish a normal return, [process.exit()] and an uncaught
    exception. *)

From Stdlib Require Import ZArith Lia Ascii String List Sorted.
From stdpp Require Import base list gmap strings pretty.
From Equations Require Import Equations.
From Equations.Prop Require Import Logic.
Import ListNotations.
Open Scope Z_scope.

(** ** Data model (lines 11-48) *)

Inductive TaskType := video | audio.

Definition TaskType_eqb (a b : TaskType) : bool :=
  match a, b with
  | video, video | audio, audio => true
  | _, _ => false
  end.

(** [interface Task] *)
Record Task := mkTask {
  type : TaskType;
  url : string;
  id : Z;
  retry : Z;
  outputPath : string
}.

(** [interface OutputItem] *)
Record OutputItem := mkOutputItem {
  description : string;
  path : string
}.

(** The fields of [class LiveDownloader] (observer and logger are external
    collaborators and appear only through the effects they receive). *)
Record LiveDownloader := mkLiveDownloader {
  keepTemporaryFiles : bool;
  workDirectoryName : string;
  outputFilename : string;
  unfinishedTasks : list Task;
  finishedTasks : list Task;
  dropedTasks : list Task;
  outputFiles : list OutputItem;
  maxRunningThreads : Z;
  nowRunningThreads : Z;
  stopFlag : bool;
  finishFlag : bool;
  isLowLatencyLiveStream : bool;
  isFFmpegAvailable : bool
}.

(** Field updates.  Only the fields the source assigns to have one; there is
    none for [dropedTasks] or [maxRunningThreads] because no statement of the
    class writes them. *)
Definition set_unfinishedTasks (v : list Task) (o : LiveDownloader) :=
  mkLiveDownloader (keepTemporaryFiles o) (workDirectoryName o) (outputFilename o)
    v (finishedTasks o) (dropedTasks o) (outputFiles o)
    (maxRunningThreads o) (nowRunningThreads o) (stopFlag o) (finishFlag o)
    (isLowLatencyLiveStream o) (isFFmpegAvailable o).

Definition set_finishedTasks (v : list Task) (o : LiveDownloader) :=
  mkLiveDownloader (keepTemporaryFiles o) (workDirectoryName o) (outputFilename o)
    (unfinishedTasks o) v (dropedTasks o) (outputFiles o)
    (maxRunningThreads o) (nowRunningThreads o) (stopFlag o) (finishFlag o)
    (isLowLatencyLiveStream o) (isFFmpegAvailable o).

Definition set_outputFiles (v : list OutputItem) (o : LiveDownloader) :=
  mkLiveDownloader (keepTemporaryFiles o) (workDirectoryName o) (outputFilename o)
    (unfinishedTasks o) (finishedTasks o) (dropedTasks o) v
    (maxRunningThreads o) (nowRunningThreads o) (stopFlag o) (finishFlag o)
    (isLowLatencyLiveStream o) (isFFmpegAvailable o).

Definition set_nowRunningThreads (v : Z) (o : LiveDownloader) :=
  mkLiveDownloader (keepTemporaryFiles o) (workDirectoryName o) (outputFilename o)
    (unfinishedTasks o) (finishedTasks o) (dropedTasks o) (outputFiles o)
    (maxRunningThreads o) v (stopFlag o) (finishFlag o)
    (isLowLatencyLiveStream o) (isFFmpegAvailable o).

Definition set_stopFlag (v : bool) (o : LiveDownloader) :=
  mkLiveDownloader (keepTemporaryFiles o) (workDirectoryName o) (outputFilename o)
    (unfinishedTasks o) (finishedTasks o) (dropedTasks o) (outputFiles o)
    (maxRunningThreads o) (nowRunningThreads o) v (finishFlag o)
    (isLowLatencyLiveStream o) (isFFmpegAvailable o).

Definition set_finishFlag (v : bool) (o : LiveDownloader) :=
  mkLiveDownloader (keepTemporaryFiles o) (workDirectoryName o) (outputFilename o)
    (unfinishedTasks o) (finishedTasks o) (dropedTasks o) (outputFiles o)
    (maxRunningThreads o) (nowRunningThreads o) (stopFlag o) v
    (isLowLatencyLiveStream o) (isFFmpegAvailable o).

Definition set_retry (v : Z) (t : Task) : Task :=
  mkTask (type t) (url t) (id t) v (outputPath t).

(** ** Paths

    [path.resolve(a, b, ...)] processes its segments from left to right,
    starting from the process's working directory; an absolute segment
    restarts the path, [.] and a leading [./] or trailing [/] of a segment
    disappear in the normalised result.  The working directory of the process
    is taken to be the root. *)
Definition is_absolute (s : string) : bool :=
  match s with
  | String "/"%char _ => true
  | _ => false
  end.

Fixpoint drop_trailing_slash (s : string) : string :=
  match s with
  | EmptyString => EmptyString
  | String c r =>
      match r with
      | EmptyString => if Ascii.eqb c "/"%char then EmptyString else s
      | _ => String c (drop_trailing_slash r)
      end
  end.

Definition drop_leading_dot (s : string) : string :=
  match s with
  | String "."%char (String "/"%char r) => r
  | _ => s
  end.

Fixpoint path_resolve_from (base : string) (segments : list string) : string :=
  match segments with
  | [] => base
  | s :: rest =>
      if is_absolute s then path_resolve_from (drop_trailing_slash s) rest
      else if String.eqb s "." || String.eqb s "" then path_resolve_from base rest
      else path_resolve_from
             (base +:+ "/" +:+ drop_trailing_slash (drop_leading_dot s)) rest
  end.

Definition path_resolve (segments : list string) : string :=
  path_resolve_from "" segments.

(** ** [Array.prototype.sort((a, b) => a.id - b.id)]

    The comparator orders by [id]; the sort is stable, so tasks with equal
    ids keep their relative order.  Insertion from the right gives exactly
    that. *)
Fixpoint insert_by_id (t : Task) (l : list Task) : list Task :=
  match l with
  | [] => [t]
  | u :: l' => if id t <=? id u then t :: u :: l' else u :: insert_by_id t l'
  end.

Definition sort_by_id (l : list Task) : list Task :=
  foldr insert_by_id [] l.

(** ** [handleTask] (lines 273-277)

    The request handed to [download]: url, destination and the timeout
    option. *)
Record DownloadRequest := mkDownloadRequest {
  req_url : string;
  req_outputPath : string;
  req_timeout : Z
}.

Definition handleTask (task : Task) : DownloadRequest :=
  mkDownloadRequest (url task) (outputPath task)
    (Z.min 45000 (15000 + 15000 * retry task)).

(** ** The scheduler as a transition system

    Node runs the handlers one at a time.  Between two handlers the state of
    the program is the object plus what the event loop holds for it: the
    [checkQueue] activations suspended at [await this.handleTask(task)]
    ([downloading]: each with its task and the request it issued), the calls
    of [beforeExit] made so far, each with the object as it was at the call
    ([beforeExitCalls]), and whether [process.exit()] was reached by the
    interrupt handler ([exited]).

    The logger calls of the handlers and [observer.disconnect()] do not touch
    this state and are left out of the scheduler.  [beforeExit] ends the
    process at some point after it was called, at the earliest inside the
    handler that called it (lines 163 and 270 are reached before any
    [await]); [exited] does not record that exit, which belongs to finalize.
    Until it happens the handlers can still run, so a run is any sequence of
    events, the runs of the program are among them, and the properties below
    hold for each of their prefixes. *)
Record World := mkWorld {
  self : LiveDownloader;
  downloading : list (Task * DownloadRequest);
  beforeExitCalls : list LiveDownloader;
  exited : bool
}.

Definition on_self (f : LiveDownloader -> LiveDownloader) (w : World) : World :=
  mkWorld (f (self w)) (downloading w) (beforeExitCalls w) (exited w).

(** The completion condition tested at line 117. *)
Definition completionCondition (o : LiveDownloader) : bool :=
  (nowRunningThreads o =? 0) && (Nat.eqb (length (unfinishedTasks o)) 0) && stopFlag o.

(** Lines 117-122.  [this.beforeExit()] is not awaited: the call is recorded
    with the object it receives, and the part of [beforeExit] that runs before
    its first suspension and touches scheduler state, the in-place sort of
    [finishedTasks] at line 156, is applied.  What [beforeExit] does with the
    object is the subject of the finalize section below. *)
Definition latch (w : World) : World :=
  if completionCondition (self w) then
    if negb (finishFlag (self w)) then
      let o := set_finishFlag true (self w) in
      mkWorld (set_finishedTasks (sort_by_id (finishedTasks o)) o)
              (downloading w) (beforeExitCalls w ++ [o]) (exited w)
    else w
  else w.

(** Lines 129-130: [this.nowRunningThreads++; task = this.unfinishedTasks.shift()],
    where [rest] is the queue after the shift. *)
Definition dequeue (rest : list Task) (w : World) : World :=
  on_self (fun o => set_unfinishedTasks rest
                      (set_nowRunningThreads (nowRunningThreads o + 1) o)) w.

(** Line 134 up to the suspension: the download is issued and the activation
    waits for it. *)
Definition await_handleTask (task : Task) (w : World) : World :=
  mkWorld (self w) (downloading w ++ [(task, handleTask task)])
          (beforeExitCalls w) (exited w).

(** [checkQueue] (lines 116-148), from its entry to the point where every
    activation it started is suspended at its [await].  The recursive call at
    line 131 happens before the activation issues its own download. *)
Equations? checkQueue (w : World) : World
  by wf (length (unfinishedTasks (self w))) lt :=
checkQueue w
  with (maxRunningThreads (self (latch w)) <=? nowRunningThreads (self (latch w))) := {
  | true => latch w
  | false with inspect (unfinishedTasks (self (latch w))) := {
    | exist _ nil _ => latch w
    | exist _ (cons task rest) Hq =>
        await_handleTask task (checkQueue (dequeue rest (latch w))) } }.
Proof.
  assert (Hl : unfinishedTasks (self (latch w)) = unfinishedTasks (self w)).
  { unfold latch. destruct (completionCondition (self w)); [|reflexivity].
    destruct (negb (finishFlag (self w))); reflexivity. }
  rewrite Hl in Hq. cbn. rewrite Hq. cbn. lia.
Qed.

(** ** Event handlers (lines 72-113 and the continuations of [checkQueue]) *)

Inductive Event :=
| NewChunks (ty : TaskType) (urls : list (Z * string))
    (** observer ['new-video-chunks'] / ['new-audio-chunks'] *)
| StreamEnd                     (** observer ['end'] *)
| Sigint                        (** [process.on("SIGINT")] *)
| Downloaded (k : nat)          (** the [k]-th pending download resolves *)
| DownloadFailed (k : nat).     (** the [k]-th pending download rejects or times out *)

Definition chunkDirectory (ty : TaskType) : string :=
  match ty with
  | video => "./video_download/"
  | audio => "./audio_download/"
  end.

(** The task built by the [urls.map] callbacks (lines 87-95, 99-107). *)
Definition newTask (workDir : string) (ty : TaskType) (u : Z * string) : Task :=
  mkTask ty (snd u) (fst u) 0
         (path_resolve [workDir; chunkDirectory ty +:+ pretty (fst u)]).

(** Lines 135-138: the continuation after a download that resolved. *)
Definition onDownloaded (task : Task) (w : World) : World :=
  checkQueue
    (on_self (fun o =>
       let o1 := set_finishedTasks (finishedTasks o ++ [task]) o in
       set_nowRunningThreads (nowRunningThreads o1 - 1) o1) w).

(** Lines 139-147: the [catch] continuation. *)
Definition onDownloadFailed (task : Task) (w : World) : World :=
  let task' := set_retry (retry task + 1) task in
  checkQueue
    (on_self (fun o =>
       let o1 := set_nowRunningThreads (nowRunningThreads o - 1) o in
       if retry task' <=? 10
       then set_unfinishedTasks (unfinishedTasks o1 ++ [task']) o1
       else o1) w).

(** The event loop removes the activation it resumes. *)
Definition resume (k : nat) (w : World) : World :=
  mkWorld (self w) (delete k (downloading w)) (beforeExitCalls w) (exited w).

Definition step (w : World) (e : Event) : World :=
  if exited w then w else
  match e with
  | NewChunks ty urls =>
      checkQueue
        (on_self (fun o =>
           set_unfinishedTasks
             (unfinishedTasks o ++ map (newTask (workDirectoryName o) ty) urls) o) w)
  | StreamEnd =>
      checkQueue (on_self (set_stopFlag true) w)
  | Sigint =>
      if negb (stopFlag (self w))
      then checkQueue (on_self (set_stopFlag true) w)
      else mkWorld (self w) (downloading w) (beforeExitCalls w) true
  | Downloaded k =>
      match downloading w !! k with
      | Some (task, _) => onDownloaded task (resume k w)
      | None => w
      end
  | DownloadFailed k =>
      match downloading w !! k with
      | Some (task, _) => onDownloadFailed task (resume k w)
      | None => w
      end
  end.

(** The object after the constructor and [start] have set it up. *)
Definition initial (keep lowLatency ffmpeg : bool) (workDir title : string) : World :=
  mkWorld
    (mkLiveDownloader keep workDir title [] [] [] [] 16 0 false false lowLatency ffmpeg)
    [] [] false.

Definition run (w : World) (evs : list Event) : World := foldl step w evs.

(** How many tasks the handlers have received from the observer along a run
    that starts in [w]. *)
Fixpoint discovered (w : World) (evs : list Event) : nat :=
  match evs with
  | [] => 0
  | e :: evs' =>
      ((if exited w then 0
        else match e with
             | NewChunks _ urls => length urls
             | _ => 0
             end)
       + discovered (step w e) evs')%nat
  end.

(** How many failures along the run took a task past its retry budget. *)
Fixpoint exhausted (w : World) (evs : list Event) : nat :=
  match evs with
  | [] => 0
  | e :: evs' =>
      ((if exited w then 0
        else match e with
             | DownloadFailed k =>
                 match downloading w !! k with
                 | Some (task, _) => if (retry task + 1 <=? 10)%Z then 0 else 1
                 | None => 0
                 end
             | _ => 0
             end)
       + exhausted (step w e) evs')%nat
  end.

(** The tasks the scheduler still accounts for: queued, being downloaded or
    finished. *)
Definition accounted (w : World) : nat :=
  (length (unfinishedTasks (self w)) + length (downloading w)
   + length (finishedTasks (self w)))%nat.

(** ** Finalize: effects, external collaborators and the monad

    [beforeExit] and [clean] talk to the logger, the file system, the muxer
    and the process.  Each such call is recorded as an effect; what an
    external call answers is read from an environment. *)

Inductive Level := debug | info | warning | error.

Inductive Exn :=
| TypeError                 (** a property read on [undefined] *)
| MergeFilesRejected        (** the promise of [mergeFiles] rejected *)
| WriteFileFailed           (** [fs.writeFileSync] threw *)
| MuxerFailed               (** the muxer's ['fail'] event: [reject()] *)
| DeleteDirectoryRejected.  (** the promise of [deleteDirectory] rejected *)

(** One constructor per message template of the source, carrying the
    interpolated values. *)
Inductive Message :=
| MsgChunkCountMismatch                  (** line 161 *)
| MsgTemporaryFilesAt (dir : string)     (** line 162 *)
| MsgDroppedVideoChunks (n : Z)          (** line 178 *)
| MsgDiscontinuous                       (** line 198 *)
| MsgOutputRange (n first last : Z)      (** line 200 *)
| MsgMergingVideo (n : Z)                (** line 209 *)
| MsgMergingAudio (n : Z)                (** line 211 *)
| MsgMuxing (n : Z)                      (** line 213 *)
| MsgMuxFailed (n : Z)                   (** lines 222 and 247 *)
| MsgException (e : Exn)                 (** lines 221 and 246 *)
| MsgCleaning                            (** line 256 *)
| MsgOutputAt (file : string)            (** line 262 *)
| MsgOutputList                          (** line 264 *)
| MsgOutputItem (descr file : string).   (** line 266 *)

Inductive Track :=
| VideoTrack (p : string)
| AudioTrack (p : string)
| VideoSequence (p : string)
| AudioSequence (p : string).

Inductive Effect :=
| Log (lvl : Level) (msg : Message)
| MergeFiles (files : list string) (output : string)
| WriteFileSync (file data : string)
| RunMuxer (output : string) (videoTrack audioTrack : Track)
| DeleteDirectory (dir : string)
| ObserverDisconnect
| ProcessExit.

(** The answers of the external collaborators: whether [mergeFiles],
    [fs.writeFileSync] and [deleteDirectory] succeed, what the muxer reports
    (['success'] with the name of the file it wrote, or ['fail']), and the
    value of [new Date().valueOf()] read for the list file of a track in
    iteration [i]. *)
Record Env := mkEnv {
  ext_mergeFiles : list string -> string -> bool;
  ext_writeFileSync : string -> string -> bool;
  ext_muxer : string -> Track -> Track -> option string;
  ext_deleteDirectory : string -> bool;
  ext_now : nat -> TaskType -> Z
}.

Record Finalizing := mkFinalizing {
  this : LiveDownloader;
  effects : list Effect
}.

Inductive Completion (A : Type) :=
| Normal (a : A)     (** the code ran to its end *)
| Exits              (** [process.exit()] was called *)
| Throws (e : Exn).  (** an exception left the code uncaught *)
Arguments Normal {A} a.
Arguments Exits {A}.
Arguments Throws {A} e.

Definition M (A : Type) : Type := Finalizing -> Finalizing * Completion A.

Definition ret {A} (a : A) : M A := fun st => (st, Normal a).

Definition bind {A B} (c : M A) (k : A -> M B) : M B :=
  fun st =>
    match c st with
    | (st', Normal a) => k a st'
    | (st', Exits) => (st', Exits)
    | (st', Throws e) => (st', Throws e)
    end.

Declare Scope m_scope.
Delimit Scope m_scope with M.
Notation "x <- c ;; k" := (bind c (fun x => k))
  (at level 100, c at next level, right associativity) : m_scope.
Notation "c ;; k" := (bind c (fun _ => k))
  (at level 100, right associativity) : m_scope.
Open Scope m_scope.

Definition getThis : M LiveDownloader := fun st => (st, Normal (this st)).

Definition modifyThis (f : LiveDownloader -> LiveDownloader) : M unit :=
  fun st => (mkFinalizing (f (this st)) (effects st), Normal tt).

Definition emit (e : Effect) : M unit :=
  fun st => (mkFinalizing (this st) (effects st ++ [e]), Normal tt).

Definition throw {A} (e : Exn) : M A := fun st => (st, Throws e).

(** [try { body } catch (e) { handler }]: [process.exit()] is not an
    exception and passes through. *)
Definition try_catch {A} (body : M A) (handler : Exn -> M A) : M A :=
  fun st =>
    match body st with
    | (st', Throws e) => handler e st'
    | r => r
    end.

Definition when (b : bool) (c : M unit) : M unit := if b then c else ret tt.

Definition logger (lvl : Level) (msg : Message) : M unit := emit (Log lvl msg).

Definition process_exit {A} : M A :=
  fun st => (mkFinalizing (this st) (effects st ++ [ProcessExit]), Exits).

(** [for (let i = start; i <= a.length - 1; i++) body(i, a[i])] over an array
    the body does not change. *)
Fixpoint forEachFrom {A} (i : nat) (a : list A) (body : nat -> A -> M unit) : M unit :=
  match a with
  | [] => ret tt
  | x :: a' => body i x ;; forEachFrom (S i) a' body
  end.

Definition mergeFiles (env : Env) (files : list string) (output : string) : M unit :=
  emit (MergeFiles files output) ;;
  (if ext_mergeFiles env files output then ret tt else throw MergeFilesRejected).

Definition writeFileSync (env : Env) (file data : string) : M unit :=
  emit (WriteFileSync file data) ;;
  (if ext_writeFileSync env file data then ret tt else throw WriteFileFailed).

Definition deleteDirectory (env : Env) (dir : string) : M unit :=
  emit (DeleteDirectory dir) ;;
  (if ext_deleteDirectory env dir then ret tt else throw DeleteDirectoryRejected).

(** The file name built at lines 281 and 298; [suffix] is [undefined] or a
    positive number. *)
Definition muxerOutputName (o : LiveDownloader) (suffix : option Z) : string :=
  outputFilename o +:+
  match suffix with
  | Some n => if n =? 0 then "" else "_" +:+ pretty n
  | None => ""
  end +:+ ".mp4".

Definition runMuxer (env : Env) (output : string) (v a : Track) : M string :=
  emit (RunMuxer output v a) ;;
  match ext_muxer env output v a with
  | Some file => ret file
  | None => throw MuxerFailed
  end.

(** [merge] (lines 279-294) and [mergeSequences] (lines 296-311). *)
Definition merge (env : Env) (videoPath audioPath : string) (suffix : option Z) : M string :=
  o <- getThis ;;
  runMuxer env (muxerOutputName o suffix) (VideoTrack videoPath) (AudioTrack audioPath).

Definition mergeSequences (env : Env) (videoFileListPath audioFileListPath : string)
    (suffix : option Z) : M string :=
  o <- getThis ;;
  runMuxer env (muxerOutputName o suffix)
    (VideoSequence videoFileListPath) (AudioSequence audioFileListPath).

(** Lines 260-269 of [clean]: the report of the output files. *)
Definition reportOutputs (items : list OutputItem) : M unit :=
  when (Nat.ltb 0 (length items))
    (match items with
     | [item] => logger info (MsgOutputAt (path_resolve ["."; path item]))
     | _ =>
         logger info MsgOutputList ;;
         forEachFrom 0 items
           (fun _ item => logger info (MsgOutputItem (description item) (path item)))
     end).

(** [clean] (lines 254-271). *)
Definition clean (env : Env) : M unit :=
  o <- getThis ;;
  when (negb (keepTemporaryFiles o))
    (logger info MsgCleaning ;;
     deleteDirectory env (path_resolve [workDirectoryName o])) ;;
  emit ObserverDisconnect ;;
  o <- getThis ;;
  reportOutputs (outputFiles o) ;;
  process_exit.

(** ** The reassembly planner (lines 156-195) *)

Definition isType (ty : TaskType) (t : Task) : bool := TaskType_eqb (type t) ty.

(** Lines 166-170: [audioIdFlags] is an array used as a map from id to
    [true]. *)
Definition audioIdFlags (finishedAudioTasks : list Task) : gmap Z bool :=
  foldl (fun flags audioTask => <[id audioTask := true]> flags) ∅ finishedAudioTasks.

(** [audioIdFlags[i]] read as a condition: a missing entry is [undefined]. *)
Definition flagAt (flags : gmap Z bool) (i : Z) : bool :=
  match flags !! i with
  | Some b => b
  | None => false
  end.

(** The array itself read as a condition, as line 172 does: an object is
    truthy whatever it holds. *)
Definition arrayTruthy (flags : gmap Z bool) : bool := true.

(** Lines 171-176: the filter callback with its counter.  The result is the
    filtered array and the final [dropCounter]. *)
Definition orphanFilter (flags : gmap Z bool) (finishedVideoTasks : list Task)
    : list Task * Z :=
  foldl
    (fun '(kept, dropCounter) t =>
       let dropCounter' :=
         if negb (arrayTruthy flags) then dropCounter + 1 else dropCounter in
       if flagAt flags (id t) then (kept ++ [t], dropCounter') else (kept, dropCounter'))
    ([], 0) finishedVideoTasks.

(** [seqs[seqs.length - 1].push(t)] *)
Definition pushToLast (seqs : list (list Task)) (t : Task) : list (list Task) :=
  alter (fun s => s ++ [t]) (length seqs - 1)%nat seqs.

(** The body of the loop at lines 189-194 for index [i]. *)
Definition groupStep (finishedVideoTasks : list Task) (seqs : list (list Task)) (i : nat)
    : list (list Task) :=
  match finishedVideoTasks !! i, finishedVideoTasks !! (i - 1)%nat with
  | Some cur, Some prev =>
      let seqs1 := if negb (id cur - id prev =? 1) then seqs ++ [[]] else seqs in
      pushToLast seqs1 cur
  | _, _ => seqs
  end.

(** Lines 182-195: [seqs]. *)
Definition groupSeqs (finishedVideoTasks : list Task) : list (list Task) :=
  match finishedVideoTasks with
  | [only] => [[only]]
  | _ => foldl (groupStep finishedVideoTasks) [[]]
           (seq 1 (length finishedVideoTasks - 1))
  end.

(** ** Reporting and merging (lines 196-251) *)

Definition newline : string := String (ascii_of_nat 10) EmptyString.

(** [seqs[i][0].id] and [seqs[i][seqs[i].length - 1].id]: reading [id] of a
    missing element is a [TypeError]. *)
Definition idOf (t : option Task) : M Z :=
  match t with
  | Some t => ret (id t)
  | None => throw TypeError
  end.

(** A task, or [undefined], inside a template string. *)
Definition showObject (t : option Task) : string :=
  match t with
  | Some _ => "[object Object]"
  | None => "undefined"
  end.

(** Lines 197-202. *)
Definition report (seqs : list (list Task)) : M unit :=
  when (Nat.ltb 1 (length seqs))
    (logger info MsgDiscontinuous ;;
     forEachFrom 0 seqs (fun i s =>
       a <- idOf (head s) ;;
       b <- idOf (last s) ;;
       logger info (MsgOutputRange (Z.of_nat i + 1) a b))).

Definition chunkPaths (o : LiveDownloader) (dir : string) (s : list Task) : list string :=
  map (fun i => path_resolve [workDirectoryName o; dir; pretty i]) (map id s).

Definition listFileData (o : LiveDownloader) (dir : string) (s : list Task) : string :=
  String.concat newline
    (map (fun f => "file '" +:+ path_resolve [workDirectoryName o; dir; pretty f] +:+ "'")
         (map id s)).

Definition pushOutputFile (item : OutputItem) : M unit :=
  modifyThis (fun o => set_outputFiles (outputFiles o ++ [item]) o).

(** Lines 205-223: the body of the loop for a low-latency stream. *)
Definition mergeLowLatency (env : Env) (useSuffix : bool) (i : nat) (s : list Task)
    : M unit :=
  o <- getThis ;;
  let n := Z.of_nat i in
  let videoOutputPath :=
    path_resolve [workDirectoryName o; "./video_download/video_merge_" +:+ pretty n +:+ ".mp4"] in
  let audioOutputPath :=
    path_resolve [workDirectoryName o; "./audio_download/video_merge_" +:+ pretty n +:+ ".mp4"] in
  logger info (MsgMergingVideo (n + 1)) ;;
  mergeFiles env (chunkPaths o "./video_download/" s) videoOutputPath ;;
  logger info (MsgMergingAudio (n + 1)) ;;
  mergeFiles env (chunkPaths o "./audio_download/" s) audioOutputPath ;;
  logger info (MsgMuxing (n + 1)) ;;
  try_catch
    (filename <- merge env videoOutputPath audioOutputPath
                   (if useSuffix then Some (n + 1) else None) ;;
     pushOutputFile
       (mkOutputItem ("#" +:+ showObject (head s) +:+ " - #" +:+ showObject (last s))
                     filename))
    (fun e =>
       logger debug (MsgException e) ;;
       logger error (MsgMuxFailed (n + 1))).

(** Lines 224-249: the body of the loop otherwise. *)
Definition mergeLists (env : Env) (useSuffix : bool) (i : nat) (s : list Task) : M unit :=
  o <- getThis ;;
  let n := Z.of_nat i in
  let videoListFilename :=
    path_resolve [workDirectoryName o;
                  "video_files_" +:+ pretty (ext_now env i video) +:+ ".txt"] in
  let audioListFilename :=
    path_resolve [workDirectoryName o;
                  "audio_files_" +:+ pretty (ext_now env i audio) +:+ ".txt"] in
  writeFileSync env (path_resolve [workDirectoryName o; videoListFilename])
    (listFileData o "./video_download" s) ;;
  writeFileSync env (path_resolve [workDirectoryName o; audioListFilename])
    (listFileData o "./audio_download" s) ;;
  try_catch
    (filename <- mergeSequences env videoListFilename audioListFilename
                   (if useSuffix then Some (n + 1) else None) ;;
     a <- idOf (head s) ;;
     b <- idOf (last s) ;;
     pushOutputFile
       (mkOutputItem ("#" +:+ pretty a +:+ " - #" +:+ pretty b) filename))
    (fun e =>
       logger debug (MsgException e) ;;
       logger error (MsgMuxFailed (n + 1))).

(** Lines 203-250: the merge loop. *)
Definition mergeAll (env : Env) (seqs : list (list Task)) : M unit :=
  let useSuffix := Nat.ltb 1 (length seqs) in
  forEachFrom 0 seqs (fun i s =>
    o <- getThis ;;
    if isLowLatencyLiveStream o
    then mergeLowLatency env useSuffix i s
    else mergeLists env useSuffix i s).

(** Lines 165-251: what [beforeExit] does once the counts agree.  The call of
    [clean] at line 251 is its last statement. *)
Definition reassemble (env : Env) (finishedVideoTasks finishedAudioTasks : list Task)
    : M unit :=
  let flags := audioIdFlags finishedAudioTasks in
  let '(finishedVideoTasks, dropCounter) := orphanFilter flags finishedVideoTasks in
  when (0 <? dropCounter) (logger warning (MsgDroppedVideoChunks dropCounter)) ;;
  let seqs := groupSeqs finishedVideoTasks in
  report seqs ;;
  mergeAll env seqs ;;
  clean env.

(** [beforeExit] (lines 150-252). *)
Definition beforeExit (env : Env) : M unit :=
  o <- getThis ;;
  if Nat.eqb (length (finishedTasks o)) 0 then clean env
  else
    modifyThis (fun o => set_finishedTasks (sort_by_id (finishedTasks o)) o) ;;
    o <- getThis ;;
    let finishedVideoTasks := List.filter (isType video) (finishedTasks o) in
    let finishedAudioTasks := List.filter (isType audio) (finishedTasks o) in
    when (negb (Nat.eqb (length finishedVideoTasks) (length finishedAudioTasks)))
      (logger error MsgChunkCountMismatch ;;
       logger error (MsgTemporaryFilesAt (path_resolve [workDirectoryName o])) ;;
       process_exit) ;;
    reassemble env finishedVideoTasks finishedAudioTasks.

(** The value of [seqs] at line 196 for a finished set, when [beforeExit]
    gets that far: it does not when the set is empty (line 151) or the counts
    differ (line 159). *)
Definition plannedSeqs (finished : list Task) : option (list (list Task)) :=
  if Nat.eqb (length finished) 0 then None
  else
    let sorted := sort_by_id finished in
    let finishedVideoTasks := List.filter (isType video) sorted in
    let finishedAudioTasks := List.filter (isType audio) sorted in
    if negb (Nat.eqb (length finishedVideoTasks) (length finishedAudioTasks)) then None
    else Some (groupSeqs
                 (fst (orphanFilter (audioIdFlags finishedAudioTasks) finishedVideoTasks))).

Definition sequencesOf (finished : list Task) : option (list (list Z)) :=
  option_map (map (map id)) (plannedSeqs finished).

(** The arguments of the muxer call of iteration [i] (lines 215 and 240), the
    effect it leaves and the answer it gets. *)
Definition muxArgs (env : Env) (o : LiveDownloader) (useSuffix : bool) (i : nat)
    : string * Track * Track :=
  let n := Z.of_nat i in
  let suffix := if useSuffix then Some (n + 1) else None in
  if isLowLatencyLiveStream o then
    (muxerOutputName o suffix,
     VideoTrack (path_resolve [workDirectoryName o;
                   "./video_download/video_merge_" +:+ pretty n +:+ ".mp4"]),
     AudioTrack (path_resolve [workDirectoryName o;
                   "./audio_download/video_merge_" +:+ pretty n +:+ ".mp4"]))
  else
    (muxerOutputName o suffix,
     VideoSequence (path_resolve [workDirectoryName o;
                      "video_files_" +:+ pretty (ext_now env i video) +:+ ".txt"]),
     AudioSequence (path_resolve [workDirectoryName o;
                      "audio_files_" +:+ pretty (ext_now env i audio) +:+ ".txt"])).

Definition muxAttempt (env : Env) (o : LiveDownloader) (useSuffix : bool) (i : nat) : Effect :=
  let '(output, v, a) := muxArgs env o useSuffix i in RunMuxer output v a.

Definition muxAnswer (env : Env) (o : LiveDownloader) (useSuffix : bool) (i : nat)
    : option string :=
  let '(output, v, a) := muxArgs env o useSuffix i in ext_muxer env output v a.

(** Effects that belong to reassembly: an error-level message or a call of
    the concatenation, list-writing or muxing collaborators. *)
Definition isReassemblyEffect (e : Effect) : bool :=
  match e with
  | Log error _ | MergeFiles _ _ | WriteFileSync _ _ | RunMuxer _ _ _ => true
  | _ => false
  end.

(** ** Concrete runs used below *)

Definition chunks (ty : TaskType) (l : list Z) : list Task :=
  map (fun i => newTask "kkr_download_0" ty (i, EmptyString)) l.

(** The object when [beforeExit] is entered with the given finished set. *)
Definition atFinalize (finished : list Task) (lowLatency : bool) : LiveDownloader :=
  mkLiveDownloader false "kkr_download_0" "live" [] finished [] [] 16 0 true true
                   lowLatency true.

(** Every collaborator succeeds. *)
Definition quietEnv : Env :=
  mkEnv (fun _ _ => true) (fun _ _ => true) (fun output _ _ => Some output)
        (fun _ => true) (fun i _ => 1000 + Z.of_nat i).

(** The muxer fails on the first of several outputs and succeeds on the
    others. *)
Definition firstMuxFailsEnv : Env :=
  mkEnv (fun _ _ => true) (fun _ _ => true)
        (fun output _ _ => if String.eqb output "live_1.mp4" then None else Some output)
        (fun _ => true) (fun i _ => 1000 + Z.of_nat i).

(** The concatenation of chunk files is rejected. *)
Definition concatFailsEnv : Env :=
  mkEnv (fun _ _ => false) (fun _ _ => true) (fun output _ _ => Some output)
        (fun _ => true) (fun i _ => 1000 + Z.of_nat i).

(** Writing a list file throws. *)
Definition listWriteFailsEnv : Env :=
  mkEnv (fun _ _ => true) (fun _ _ => false) (fun output _ _ => Some output)
        (fun _ => true) (fun i _ => 1000 + Z.of_nat i).

Definition w0 : World := initial false false true "kkr_download_0" "live".

(** One video chunk is announced, its download fails eleven times, then the
    stream ends. *)
Definition exhaustedRun : list Event :=
  NewChunks video [(1, EmptyString)] :: repeat (DownloadFailed 0) 11 ++ [StreamEnd].

(** ** Predicates used in the statements

    The parts of the scheduler invariant: the counter agrees with the pending
    downloads, it respects the cap, the latch has fired whenever the
    completion condition holds, and [beforeExit] was called once if the flag
    is set and never otherwise. *)

Definition balanced (w : World) : Prop :=
  nowRunningThreads (self w) = Z.of_nat (length (downloading w)).

Definition bounded (w : World) : Prop :=
  nowRunningThreads (self w) <= maxRunningThreads (self w).

Definition latched (w : World) : Prop :=
  completionCondition (self w) = true -> finishFlag (self w) = true.

Definition once (w : World) : Prop :=
  length (beforeExitCalls w) = if finishFlag (self w) then 1%nat else 0%nat.

(** The invariant of the scheduler between two handlers. *)
Definition Inv (w : World) : Prop :=
  balanced w /\ bounded w /\ maxRunningThreads (self w) = 16 /\
  latched w /\ once w /\ dropedTasks (self w) = [].

(** Retry counts stay within the budget for every task still known to the
    scheduler: a task is looked at again only while its count is at most 10. *)
Definition retryWithinBudget (w : World) : Prop :=
  Forall (fun t => retry t <= 10) (unfinishedTasks (self w)) /\
  Forall (fun d => retry (fst d) <= 10) (downloading w) /\
  Forall (fun t => retry t <= 10) (finishedTasks (self w)).

(** Code that only appends effects outside reassembly and returns. *)
Definition cleanupOnly (c : M unit) : Prop :=
  forall st, exists new,
    c st = (mkFinalizing (this st) (effects st ++ new), Normal tt) /\
    Forall (fun e => isReassemblyEffect e = false) new.

(** How the merge loop can end: normally, or with the exception of a step
    that is outside the [try] blocks. *)
Definition stopsOutsideTry (c : Completion unit) : Prop :=
  c = Normal tt \/ c = Throws MergeFilesRejected \/ c = Throws WriteFileFailed.

(** ** Further predicates

    The scheduler has nothing left to start: the queue is empty or the cap
    is reached. *)
Definition saturated (w : World) : Prop :=
  unfinishedTasks (self w) = [] \/
  maxRunningThreads (self w) <= nowRunningThreads (self w).

(** A property of tasks that holds for every task the scheduler accounts
    for. *)
Definition tracked (P : Task -> Prop) (w : World) : Prop :=
  Forall P (unfinishedTasks (self w)) /\
  Forall (fun d => P (fst d)) (downloading w) /\
  Forall P (finishedTasks (self w)).

(** How many tasks one call of [checkQueue] can start in [w]: as many as
    there are free slots, and no more than are queued. *)
Definition startable (w : World) : nat :=
  Nat.min (length (unfinishedTasks (self w)))
          (Z.to_nat (maxRunningThreads (self w) - nowRunningThreads (self w))).

(** A run of tasks whose ids go up by exactly one from each task to the
    next. *)
Definition consecutive (s : list Task) : Prop :=
  forall i a b, s !! i = Some a -> s !! S i = Some b -> id b - id a = 1.

(** The grouping loop read as a recursion over the tasks still to place:
    [lst] is the sequence being filled, [prev] the task placed last. *)
Fixpoint groupFrom (lst : list Task) (prev : Task) (rest : list Task)
    : list (list Task) :=
  match rest with
  | [] => [lst]
  | cur :: rest' =>
      if negb (id cur - id prev =? 1)
      then lst :: groupFrom [cur] cur rest'
      else groupFrom (lst ++ [cur]) cur rest'
  end.

(** The surviving video tasks start with two tasks whose ids are not
    consecutive. *)
Definition leadingGap (kept : list Task) : bool :=
  match kept with
  | t0 :: t1 :: _ => negb (id t1 - id t0 =? 1)
  | _ => false
  end.

(** Monadic code that, started on an object satisfying [I], adds only effects
    satisfying [P], leaves an object satisfying [I] however it completes,
    and returns only values satisfying [Q]. *)
Definition emits {A} (I : LiveDownloader -> Prop) (P : Effect -> Prop)
    (c : M A) (Q : A -> Prop) : Prop :=
  forall st, I (this st) ->
    exists new,
      effects (fst (c st)) = effects st ++ new /\
      Forall P new /\
      I (this (fst (c st))) /\
      (forall a, snd (c st) = Normal a -> Q a).

(** What [clean] logs about the output files (lines 260-269). *)
Definition outputReport (items : list OutputItem) : list Effect :=
  match items with
  | [] => []
  | [item] => [Log info (MsgOutputAt (path_resolve ["."; path item]))]
  | _ => Log info MsgOutputList ::
         map (fun item => Log info (MsgOutputItem (description item) (path item))) items
  end.

(** The chunk a task stands for: its track and its id. *)
Definition chunkOf (t : Task) : TaskType * Z := (type t, id t).

(** The chunks of the tasks the scheduler accounts for, one entry per task. *)
Definition trackedChunks (w : World) : list (TaskType * Z) :=
  map chunkOf (unfinishedTasks (self w) ++ map fst (downloading w)
               ++ finishedTasks (self w)).

(** The chunks the observer announced along a run that starts in [w], one
    entry per announcement. *)
Fixpoint announced (w : World) (evs : list Event) : list (TaskType * Z) :=
  match evs with
  | [] => []
  | e :: evs' =>
      (if exited w then []
       else match e with
            | NewChunks ty urls => map (fun u => (ty, fst u)) urls
            | _ => []
            end)
      ++ announced (step w e) evs'
  end.

(** ** The merge loop, iteration by iteration *)

(** One iteration of the merge loop (lines 204-249). *)
Definition mergeIteration (env : Env) (useSuffix : bool) (i : nat) (s : list Task)
    : M unit :=
  o <- getThis ;;
  if isLowLatencyLiveStream o
  then mergeLowLatency env useSuffix i s
  else mergeLists env useSuffix i s.

(** Whether the calls of iteration [i] that stand before its [try] block go
    through: the two awaited [mergeFiles] (lines 210 and 212) on a
    low-latency stream, the two [fs.writeFileSync] (lines 227-238) otherwise.
    The second call is made only when the first went through. *)
Definition precedingStepsPass (env : Env) (o : LiveDownloader) (i : nat)
    (s : list Task) : bool :=
  let n := Z.of_nat i in
  if isLowLatencyLiveStream o then
    ext_mergeFiles env (chunkPaths o "./video_download/" s)
      (path_resolve [workDirectoryName o;
                     "./video_download/video_merge_" +:+ pretty n +:+ ".mp4"])
    && ext_mergeFiles env (chunkPaths o "./audio_download/" s)
      (path_resolve [workDirectoryName o;
                     "./audio_download/video_merge_" +:+ pretty n +:+ ".mp4"])
  else
    ext_writeFileSync env
      (path_resolve [workDirectoryName o;
         path_resolve [workDirectoryName o;
                       "video_files_" +:+ pretty (ext_now env i video) +:+ ".txt"]])
      (listFileData o "./video_download" s)
    && ext_writeFileSync env
      (path_resolve [workDirectoryName o;
         path_resolve [workDirectoryName o;
                       "audio_files_" +:+ pretty (ext_now env i audio) +:+ ".txt"]])
      (listFileData o "./audio_download" s).

(** Whether the muxing step of iteration [i] fails inside its [try] block:
    the muxer reports ['fail'], or, with list files, the muxer succeeds and
    the output item cannot be built because the sequence has no task to read
    an id from (line 243). *)
Definition muxStepFails (env : Env) (o : LiveDownloader) (useSuffix : bool) (i : nat)
    (s : list Task) : bool :=
  match muxAnswer env o useSuffix i with
  | None => true
  | Some _ => negb (isLowLatencyLiveStream o) && Nat.eqb (length s) 0
  end.

Definition isMuxerCall (e : Effect) : bool :=
  match e with
  | RunMuxer _ _ _ => true
  | _ => false
  end.

(** The calls that stand before the [try] block of an iteration. *)
Definition isPrecedingCall (e : Effect) : bool :=
  match e with
  | MergeFiles _ _ | WriteFileSync _ _ => true
  | _ => false
  end.

(** What only [clean] does. *)
Definition isCleanupEffect (e : Effect) : bool :=
  match e with
  | Log info MsgCleaning | DeleteDirectory _ | ObserverDisconnect | ProcessExit => true
  | _ => false
  end.

(** Whether the report of lines 197-202 gets to its end: it reads the first
    and the last task of every sequence when there are several. *)
Definition reportCompletes (seqs : list (list Task)) : bool :=
  negb (Nat.ltb 1 (length seqs))
  || forallb (fun s => negb (Nat.eqb (length s) 0)) seqs.

(** What the merge loop adds to the trace: the muxer is called once per
    iteration and nothing of [clean] happens. *)
Definition loopTrace (n : nat) (new : list Effect) : Prop :=
  length (List.filter isMuxerCall new) = n /\
  Forall (fun e => isCleanupEffect e = false) new.

(** * Properties *)

(** ** The sort *)

Lemma insert_by_id_length t l : length (insert_by_id t l) = S (length l).
Proof.
  induction l as [|u l IH]; cbn; [reflexivity|].
  destruct (id t <=? id u); cbn; [reflexivity|]. now rewrite IH.
Qed.

Lemma sort_by_id_length l : length (sort_by_id l) = length l.
Proof.
  induction l as [|t l IH]; cbn; [reflexivity|].
  rewrite insert_by_id_length. now f_equal.
Qed.

Lemma insert_by_id_In t l x : In x (insert_by_id t l) <-> x = t \/ In x l.
Proof.
  induction l as [|u l IH]; cbn.
  - intuition.
  - destruct (id t <=? id u); cbn; [intuition|]. rewrite IH. intuition.
Qed.

Lemma sort_by_id_In l x : In x (sort_by_id l) <-> In x l.
Proof.
  induction l as [|t l IH]; cbn; [reflexivity|].
  rewrite insert_by_id_In, IH. intuition.
Qed.

Lemma insert_by_id_filter_length p t l :
  length (List.filter p (insert_by_id t l)) = length (List.filter p (t :: l)).
Proof.
  induction l as [|u l IH]; [reflexivity|].
  cbn [insert_by_id]. destruct (id t <=? id u); [reflexivity|].
  cbn [List.filter] in *.
  destruct (p u), (p t); cbn [length] in *; lia.
Qed.

Lemma sort_by_id_filter_length p l :
  length (List.filter p (sort_by_id l)) = length (List.filter p l).
Proof.
  induction l as [|t l IH]; [reflexivity|].
  cbn [sort_by_id foldr]. rewrite insert_by_id_filter_length.
  fold (sort_by_id l). cbn [List.filter].
  destruct (p t); cbn [length]; lia.
Qed.

Lemma insert_by_id_sorted t l :
  StronglySorted (fun a b => id a <= id b) l ->
  StronglySorted (fun a b => id a <= id b) (insert_by_id t l).
Proof.
  induction 1 as [|u l Hl IH Hu]; cbn.
  - repeat constructor.
  - destruct (id t <=? id u) eqn:Hle.
    + apply Z.leb_le in Hle. constructor; [now constructor|].
      constructor; [assumption|].
      eapply List.Forall_impl; [|exact Hu]. cbn. intros; lia.
    + apply Z.leb_gt in Hle. constructor; [assumption|].
      apply List.Forall_forall. intros x Hx. apply insert_by_id_In in Hx as [->|Hx].
      * lia.
      * rewrite List.Forall_forall in Hu. now apply Hu.
Qed.

(** The sort orders by ascending id. *)
Lemma sort_by_id_sorted l :
  StronglySorted (fun a b => id a <= id b) (sort_by_id l).
Proof.
  induction l as [|t l IH]; cbn; [constructor|]. now apply insert_by_id_sorted.
Qed.

Lemma filter_sorted (p : Task -> bool) l :
  StronglySorted (fun a b => id a <= id b) l ->
  StronglySorted (fun a b => id a <= id b) (List.filter p l).
Proof.
  induction 1 as [|u l Hl IH Hu]; cbn; [constructor|].
  destruct (p u); [|assumption]. constructor; [assumption|].
  apply List.Forall_forall. intros x Hx. apply filter_In in Hx as [Hx _].
  rewrite List.Forall_forall in Hu. now apply Hu.
Qed.

(** ** The scheduler *)

(** What one activation of [checkQueue] does, as an induction principle: it
    stops at the cap, stops on an empty queue, or dequeues, recurses and then
    issues its download. *)
Lemma checkQueue_cases (P : World -> World -> Prop) :
  (forall w,
      maxRunningThreads (self (latch w)) <= nowRunningThreads (self (latch w)) ->
      P w (latch w)) ->
  (forall w,
      nowRunningThreads (self (latch w)) < maxRunningThreads (self (latch w)) ->
      unfinishedTasks (self (latch w)) = [] ->
      P w (latch w)) ->
  (forall w task rest,
      nowRunningThreads (self (latch w)) < maxRunningThreads (self (latch w)) ->
      unfinishedTasks (self (latch w)) = task :: rest ->
      P (dequeue rest (latch w)) (checkQueue (dequeue rest (latch w))) ->
      P w (await_handleTask task (checkQueue (dequeue rest (latch w))))) ->
  forall w, P w (checkQueue w).
Proof.
  intros Hcap Hempty Hrec w.
  funelim (checkQueue w).
  - apply Hcap. now apply Z.leb_le.
  - apply Hempty; [now apply Z.leb_gt | assumption].
  - apply Hrec; [now apply Z.leb_gt | assumption | ].
    match goal with IH : forall Q : World -> World -> Prop, _ |- _ =>
      apply IH; assumption end.
Qed.

Ltac latch_cases w :=
  unfold latch;
  destruct (completionCondition (self w)) eqn:?;
  [let E := fresh "Hflag" in
   destruct (finishFlag (self w)) eqn:E; cbn; rewrite ?E|]; cbn.

Lemma latch_fields w :
  unfinishedTasks (self (latch w)) = unfinishedTasks (self w) /\
  nowRunningThreads (self (latch w)) = nowRunningThreads (self w) /\
  maxRunningThreads (self (latch w)) = maxRunningThreads (self w) /\
  stopFlag (self (latch w)) = stopFlag (self w) /\
  dropedTasks (self (latch w)) = dropedTasks (self w) /\
  downloading (latch w) = downloading w /\
  exited (latch w) = exited w /\
  length (finishedTasks (self (latch w))) = length (finishedTasks (self w)).
Proof.
  latch_cases w; repeat split; try reflexivity.
  apply sort_by_id_length.
Qed.

Lemma latch_completionCondition w :
  completionCondition (self (latch w)) = completionCondition (self w).
Proof.
  destruct (latch_fields w) as (Hq & Hn & _ & Hs & _).
  unfold completionCondition. now rewrite Hq, Hn, Hs.
Qed.

Lemma latch_latched w : latched (latch w).
Proof.
  unfold latched. rewrite latch_completionCondition.
  latch_cases w; congruence.
Qed.

Lemma latch_once w : once w -> once (latch w).
Proof.
  unfold once. latch_cases w; try tauto.
  intros H. rewrite length_app, H. reflexivity.
Qed.

Lemma latch_finishFlag_mono w :
  finishFlag (self w) = true -> latch w = w.
Proof.
  intros H. unfold latch. rewrite H.
  now destruct (completionCondition (self w)).
Qed.

Lemma checkQueue_maxRunningThreads w :
  maxRunningThreads (self (checkQueue w)) = maxRunningThreads (self w).
Proof.
  apply (checkQueue_cases
           (fun w w' => maxRunningThreads (self w') = maxRunningThreads (self w)));
    clear w.
  - intros w _. apply latch_fields.
  - intros w _ _. apply latch_fields.
  - intros w task rest _ _ IH. cbn in *. rewrite IH. apply latch_fields.
Qed.

Lemma checkQueue_bounded w : bounded w -> bounded (checkQueue w).
Proof.
  apply (checkQueue_cases (fun w w' => bounded w -> bounded w')); clear w;
    unfold bounded.
  - intros w _ H. destruct (latch_fields w) as (_ & Hn & Hm & _). lia.
  - intros w _ _ H. destruct (latch_fields w) as (_ & Hn & Hm & _). lia.
  - intros w task rest Hlt _ IH _. cbn in *. apply IH. lia.
Qed.

Lemma checkQueue_balance w :
  nowRunningThreads (self (checkQueue w)) - Z.of_nat (length (downloading (checkQueue w)))
  = nowRunningThreads (self w) - Z.of_nat (length (downloading w)).
Proof.
  apply (checkQueue_cases (fun w w' =>
    nowRunningThreads (self w') - Z.of_nat (length (downloading w'))
    = nowRunningThreads (self w) - Z.of_nat (length (downloading w)))); clear w.
  - intros w _. destruct (latch_fields w) as (_ & Hn & _ & _ & _ & Hd & _).
    now rewrite Hn, Hd.
  - intros w _ _. destruct (latch_fields w) as (_ & Hn & _ & _ & _ & Hd & _).
    now rewrite Hn, Hd.
  - intros w task rest _ _ IH.
    destruct (latch_fields w) as (_ & Hn & _ & _ & _ & Hd & _).
    cbn in *. rewrite length_app. cbn. rewrite Hn, Hd in IH. lia.
Qed.

Lemma checkQueue_balanced w : balanced w -> balanced (checkQueue w).
Proof. unfold balanced. pose proof (checkQueue_balance w). lia. Qed.

Lemma checkQueue_latched w : latched (checkQueue w).
Proof.
  apply (checkQueue_cases (fun _ w' => latched w')); clear w.
  - intros w _. apply latch_latched.
  - intros w _ _. apply latch_latched.
  - intros w task rest _ _ IH. exact IH.
Qed.

Lemma checkQueue_once w : once w -> once (checkQueue w).
Proof.
  apply (checkQueue_cases (fun w w' => once w -> once w')); clear w.
  - intros w _. apply latch_once.
  - intros w _ _. apply latch_once.
  - intros w task rest _ _ IH H. apply latch_once in H.
    unfold once in *. cbn in *. apply IH. exact H.
Qed.

Lemma checkQueue_dropedTasks w :
  dropedTasks (self (checkQueue w)) = dropedTasks (self w).
Proof.
  apply (checkQueue_cases
           (fun w w' => dropedTasks (self w') = dropedTasks (self w))); clear w.
  - intros w _. apply latch_fields.
  - intros w _ _. apply latch_fields.
  - intros w task rest _ _ IH. cbn in *. rewrite IH. apply latch_fields.
Qed.

Lemma checkQueue_exited w : exited (checkQueue w) = exited w.
Proof.
  apply (checkQueue_cases (fun w w' => exited w' = exited w)); clear w.
  - intros w _. apply latch_fields.
  - intros w _ _. apply latch_fields.
  - intros w task rest _ _ IH. cbn in *. rewrite IH. apply latch_fields.
Qed.

(** [checkQueue] re-establishes the invariant from a state in which only the
    latch may be pending. *)
Lemma checkQueue_Inv w :
  balanced w -> bounded w -> maxRunningThreads (self w) = 16 -> once w ->
  dropedTasks (self w) = [] ->
  Inv (checkQueue w).
Proof.
  intros Hbal Hbnd Hmax Honce Hdrop. repeat split.
  - now apply checkQueue_balanced.
  - now apply checkQueue_bounded.
  - now rewrite checkQueue_maxRunningThreads.
  - apply checkQueue_latched.
  - now apply checkQueue_once.
  - now rewrite checkQueue_dropedTasks.
Qed.

Lemma initial_Inv keep lowLatency ffmpeg workDir title :
  Inv (initial keep lowLatency ffmpeg workDir title).
Proof.
  unfold Inv, balanced, bounded, latched, once. cbn.
  repeat split; try reflexivity; try lia.
Qed.

Lemma length_delete_lookup {A} (l : list A) k x :
  l !! k = Some x -> length l = S (length (delete k l)).
Proof.
  revert k. induction l as [|y l IH]; intros [|k] H; cbn in *; try discriminate.
  - reflexivity.
  - f_equal. now apply IH.
Qed.

Lemma step_Inv w e : Inv w -> Inv (step w e).
Proof.
  intros (Hbal & Hbnd & Hmax & Hlat & Honce & Hdrop).
  unfold step. destruct (exited w); [repeat split; assumption|].
  unfold balanced, bounded, once in *.
  destruct e as [ty urls| | |k|k].
  - apply checkQueue_Inv; assumption.
  - apply checkQueue_Inv; assumption.
  - destruct (negb (stopFlag (self w))).
    + apply checkQueue_Inv; assumption.
    + repeat split; assumption.
  - destruct (downloading w !! k) as [[task req]|] eqn:Hk;
      [|repeat split; assumption].
    apply length_delete_lookup in Hk.
    apply checkQueue_Inv; unfold balanced, bounded, once; cbn; try assumption; lia.
  - destruct (downloading w !! k) as [[task req]|] eqn:Hk;
      [|repeat split; assumption].
    apply length_delete_lookup in Hk.
    apply checkQueue_Inv; unfold balanced, bounded, once; cbn;
      destruct (retry task + 1 <=? 10); cbn; try assumption; lia.
Qed.

Lemma run_Inv w evs : Inv w -> Inv (run w evs).
Proof.
  revert w. induction evs as [|e evs IH]; intros w H; cbn; [assumption|].
  apply IH. now apply step_Inv.
Qed.

(** No run ever records a task in [dropedTasks]. *)
Lemma dropedTasks_never_written keep lowLatency ffmpeg workDir title evs :
  dropedTasks (self (run (initial keep lowLatency ffmpeg workDir title) evs)) = [].
Proof. apply (run_Inv _ evs (initial_Inv _ _ _ _ _)). Qed.

(** At the cap, [checkQueue] starts nothing: queue and counter stay as they
    are. *)
Lemma checkQueue_at_cap w :
  maxRunningThreads (self w) <= nowRunningThreads (self w) ->
  checkQueue w = latch w.
Proof.
  intros H. funelim (checkQueue w); try reflexivity.
  destruct (latch_fields w) as (_ & Hn & Hm & _).
  apply Z.leb_gt in Heq. lia.
Qed.

(** Every pending download was issued by [handleTask] for its task. *)
Lemma checkQueue_requests w :
  Forall (fun d => snd d = handleTask (fst d)) (downloading w) ->
  Forall (fun d => snd d = handleTask (fst d)) (downloading (checkQueue w)).
Proof.
  apply (checkQueue_cases (fun w w' =>
    Forall (fun d => snd d = handleTask (fst d)) (downloading w) ->
    Forall (fun d => snd d = handleTask (fst d)) (downloading w'))); clear w.
  - intros w _ H. destruct (latch_fields w) as (_ & _ & _ & _ & _ & Hd & _).
    now rewrite Hd.
  - intros w _ _ H. destruct (latch_fields w) as (_ & _ & _ & _ & _ & Hd & _).
    now rewrite Hd.
  - intros w task rest _ _ IH H. cbn in *.
    destruct (latch_fields w) as (_ & _ & _ & _ & _ & Hd & _).
    rewrite Hd in IH. apply Forall_app. split; [now apply IH|].
    constructor; [reflexivity|constructor].
Qed.

(** ** C6: concurrency bound *)

(** C6.  Along every sequence of discovery, end, interrupt and completion
    events, the counter of running downloads stays between 0 and the cap,
    which is 16, and equals the number of downloads actually pending. *)
Theorem concurrency_bound keep lowLatency ffmpeg workDir title (evs : list Event) :
  let w := run (initial keep lowLatency ffmpeg workDir title) evs in
  0 <= nowRunningThreads (self w) <= maxRunningThreads (self w) /\
  maxRunningThreads (self w) = 16 /\
  nowRunningThreads (self w) = Z.of_nat (length (downloading w)).
Proof.
  intros w.
  destruct (run_Inv _ evs (initial_Inv keep lowLatency ffmpeg workDir title))
    as (Hbal & Hbnd & Hmax & _).
  fold w in Hbal, Hbnd, Hmax. unfold balanced, bounded in *.
  repeat split; try assumption. lia.
Qed.

(** ** C5: the finalize latch *)

(** C5.  Along every sequence of events [beforeExit] has been called at most
    once; it has been called exactly when [finishFlag] is set; and whenever
    the completion condition (nothing running, empty queue, stop notified)
    holds after a handler, it has been called. *)
Theorem finalize_exactly_once keep lowLatency ffmpeg workDir title (evs : list Event) :
  let w := run (initial keep lowLatency ffmpeg workDir title) evs in
  (length (beforeExitCalls w) <= 1)%nat /\
  length (beforeExitCalls w) = (if finishFlag (self w) then 1%nat else 0%nat) /\
  (completionCondition (self w) = true -> length (beforeExitCalls w) = 1%nat).
Proof.
  intros w.
  destruct (run_Inv _ evs (initial_Inv keep lowLatency ffmpeg workDir title))
    as (_ & _ & _ & Hlat & Honce & _).
  fold w in Hlat, Honce. unfold latched, once in *.
  repeat split.
  - rewrite Honce. destruct (finishFlag (self w)); lia.
  - exact Honce.
  - intros H. rewrite Honce, (Hlat H). reflexivity.
Qed.

(** ** C3 and C4: tasks that exhaust their retries *)

Lemma Forall_sort_by_id (P : Task -> Prop) l : Forall P l -> Forall P (sort_by_id l).
Proof.
  rewrite !List.Forall_forall. intros H x Hx. apply H. now apply sort_by_id_In.
Qed.

Lemma latch_retryWithinBudget w : retryWithinBudget w -> retryWithinBudget (latch w).
Proof.
  unfold retryWithinBudget. latch_cases w; try tauto.
  intros (Hq & Hd & Hf). repeat split; try assumption.
  now apply Forall_sort_by_id.
Qed.

Lemma checkQueue_retryWithinBudget w :
  retryWithinBudget w -> retryWithinBudget (checkQueue w).
Proof.
  apply (checkQueue_cases (fun w w' => retryWithinBudget w -> retryWithinBudget w'));
    clear w.
  - intros w _. apply latch_retryWithinBudget.
  - intros w _ _. apply latch_retryWithinBudget.
  - intros w task rest _ Hq IH H.
    apply latch_retryWithinBudget in H. destruct H as (Hu & Hd & Hf).
    rewrite Hq in Hu. inversion Hu as [|? ? Htask Hrest]; subst.
    destruct IH as (Hu' & Hd' & Hf'); [repeat split; assumption|].
    repeat split; cbn; try assumption.
    apply Forall_app. split; [assumption|]. constructor; [assumption|constructor].
Qed.

Lemma Forall_delete {A} (P : A -> Prop) (l : list A) k :
  Forall P l -> Forall P (delete k l).
Proof.
  intros H. revert k. induction H as [|x l Hx Hl IH]; intros [|k]; cbn;
    try constructor; auto.
Qed.

Lemma step_retryWithinBudget w e : retryWithinBudget w -> retryWithinBudget (step w e).
Proof.
  intros (Hu & Hd & Hf). unfold step. destruct (exited w); [repeat split; assumption|].
  destruct e as [ty urls| | |k|k].
  - apply checkQueue_retryWithinBudget. repeat split; cbn; try assumption.
    apply Forall_app. split; [assumption|].
    apply List.Forall_forall. intros t Ht. apply in_map_iff in Ht.
    destruct Ht as (u & <- & _). cbn. lia.
  - apply checkQueue_retryWithinBudget. repeat split; assumption.
  - destruct (negb (stopFlag (self w))).
    + apply checkQueue_retryWithinBudget. repeat split; assumption.
    + repeat split; assumption.
  - destruct (downloading w !! k) as [[task req]|] eqn:Hk;
      [|repeat split; assumption].
    assert (Htask : retry task <= 10).
    { apply list_elem_of_lookup_2 in Hk. apply list_elem_of_In in Hk.
      rewrite List.Forall_forall in Hd. apply (Hd _ Hk). }
    apply checkQueue_retryWithinBudget. repeat split; cbn.
    + assumption.
    + now apply Forall_delete.
    + apply Forall_app. split; [assumption|]. constructor; [assumption|constructor].
  - destruct (downloading w !! k) as [[task req]|] eqn:Hk;
      [|repeat split; assumption].
    apply checkQueue_retryWithinBudget. repeat split; cbn.
    + destruct (retry task + 1 <=? 10) eqn:Hle; cbn; [|assumption].
      apply Forall_app. split; [assumption|].
      constructor; [cbn; now apply Z.leb_le|constructor].
    + now apply Forall_delete.
    + destruct (retry task + 1 <=? 10); cbn; assumption.
Qed.

(** A task whose failures exceed the budget is never among the finished
    ones: every finished task failed at most 10 times. *)
Lemma finished_within_budget keep lowLatency ffmpeg workDir title evs :
  Forall (fun t => retry t <= 10)
         (finishedTasks (self (run (initial keep lowLatency ffmpeg workDir title) evs))).
Proof.
  assert (H : forall w, retryWithinBudget w -> retryWithinBudget (run w evs)).
  { induction evs as [|e evs IH]; intros w Hw; cbn; [assumption|].
    apply IH. now apply step_retryWithinBudget. }
  apply H. repeat split; constructor.
Qed.

(** What a failure does before the queue is looked at again: the count is
    raised by one, the counter of running downloads drops by one, and the
    task goes to the back of the queue exactly when the new count is at most
    10. *)
Lemma onDownloadFailed_requeue task w :
  onDownloadFailed task w =
  checkQueue
    (on_self (fun o =>
       set_unfinishedTasks
         (unfinishedTasks o ++
            if retry task + 1 <=? 10 then [set_retry (retry task + 1) task] else [])
         (set_nowRunningThreads (nowRunningThreads o - 1) o)) w).
Proof.
  unfold onDownloadFailed. cbn. destruct (retry task + 1 <=? 10); cbn.
  - reflexivity.
  - f_equal. unfold on_self, set_unfinishedTasks, set_nowRunningThreads. cbn.
    rewrite app_nil_r. destruct w as [[] ? ? ?]; reflexivity.
Qed.

Lemma checkQueue_accounted w : accounted (checkQueue w) = accounted w.
Proof.
  apply (checkQueue_cases (fun w w' => accounted w' = accounted w)); clear w;
    unfold accounted.
  - intros w _. destruct (latch_fields w) as (Hq & _ & _ & _ & _ & Hd & _ & Hf).
    now rewrite Hq, Hd, Hf.
  - intros w _ _. destruct (latch_fields w) as (Hq & _ & _ & _ & _ & Hd & _ & Hf).
    now rewrite Hq, Hd, Hf.
  - intros w task rest _ Hq IH.
    destruct (latch_fields w) as (Hq' & _ & _ & _ & _ & Hd & _ & Hf).
    cbn in *. rewrite length_app. cbn. rewrite Hq in Hq'.
    rewrite <- Hq', Hd, Hf in *. cbn. lia.
Qed.

(** What does hold in place of conservation: the tasks received are the
    tasks still accounted for plus those that exhausted their retries, and
    the latter are recorded nowhere. *)
Lemma accounted_plus_exhausted w evs :
  (accounted (run w evs) + exhausted w evs = accounted w + discovered w evs)%nat.
Proof.
  revert w. induction evs as [|e evs IH]; intros w; cbn [run foldl exhausted discovered].
  - lia.
  - fold (run (step w e) evs). rewrite Nat.add_assoc, (Nat.add_comm (accounted _)).
    rewrite <- Nat.add_assoc, IH.
    enough (H : ((if exited w then 0
                  else match e with
                       | DownloadFailed k =>
                           match downloading w !! k with
                           | Some (task, _) => if (retry task + 1 <=? 10)%Z then 0 else 1
                           | None => 0
                           end
                       | _ => 0
                       end) + accounted (step w e)
                 = accounted w
                   + (if exited w then 0
                      else match e with
                           | NewChunks _ urls => length urls
                           | _ => 0
                           end))%nat) by lia.
    unfold step. destruct (exited w); [lia|].
    destruct e as [ty urls| | |k|k]; rewrite ?checkQueue_accounted.
    + unfold accounted. cbn. rewrite length_app, length_map. lia.
    + unfold accounted. cbn. lia.
    + destruct (negb (stopFlag (self w))); rewrite ?checkQueue_accounted;
        unfold accounted; cbn; lia.
    + destruct (downloading w !! k) as [[task req]|] eqn:Hk; [|lia].
      unfold onDownloaded. rewrite checkQueue_accounted.
      apply length_delete_lookup in Hk. unfold accounted. cbn.
      rewrite length_app. cbn. lia.
    + destruct (downloading w !! k) as [[task req]|] eqn:Hk; [|lia].
      unfold onDownloadFailed. rewrite checkQueue_accounted.
      apply length_delete_lookup in Hk. unfold accounted. cbn.
      destruct (retry task + 1 <=? 10); cbn; rewrite ?length_app; cbn; lia.
Qed.

(** C3.  The run in which the only discovered task fails eleven times and the
    stream then ends: draining is complete and [beforeExit] was called, one
    task was discovered, and finished and dropped together hold none. *)
Theorem conservation_broken_by_exhausted_task :
  let w := run w0 exhaustedRun in
  completionCondition (self w) = true /\
  downloading w = [] /\
  length (beforeExitCalls w) = 1%nat /\
  discovered w0 exhaustedRun = 1%nat /\
  (length (finishedTasks (self w)) + length (dropedTasks (self w)))%nat = 0%nat.
Proof. vm_compute. repeat split. Qed.

(** C4.  The same run, looked at task by task: after ten failures the task is
    still being retried with count 10; the eleventh failure removes it from
    the queue and from the pending downloads, and it is in neither
    [finishedTasks] nor [dropedTasks]. *)
Theorem exhausted_task_not_in_dropedTasks :
  let w10 := run w0 (take 11 exhaustedRun) in
  let w11 := run w0 (take 12 exhaustedRun) in
  map (fun d => retry (fst d)) (downloading w10) = [10] /\
  unfinishedTasks (self w11) = [] /\
  downloading w11 = [] /\
  finishedTasks (self w11) = [] /\
  dropedTasks (self w11) = [].
Proof. vm_compute. repeat split. Qed.

(** ** C7: parity mismatch *)

(** C7.  When the numbers of finished video and audio tasks differ,
    [beforeExit] sorts the finished tasks, logs the two error messages, the
    second naming the resolved working directory, and calls
    [process.exit()]: nothing else happens, so no sequence is computed or
    merged, no output file is recorded and the working directory is not
    deleted. *)
Theorem parity_mismatch_aborts (env : Env) (o : LiveDownloader) (tr : list Effect) :
  length (List.filter (isType video) (finishedTasks o))
    <> length (List.filter (isType audio) (finishedTasks o)) ->
  beforeExit env (mkFinalizing o tr) =
  (mkFinalizing (set_finishedTasks (sort_by_id (finishedTasks o)) o)
     (tr ++ [Log error MsgChunkCountMismatch;
             Log error (MsgTemporaryFilesAt (path_resolve [workDirectoryName o]));
             ProcessExit]),
   Exits).
Proof.
  intros Hne.
  unfold beforeExit, bind, getThis. cbn [this].
  destruct (finishedTasks o) as [|t l] eqn:Hfin; [now contradiction Hne|].
  rewrite <- Hfin in *. 
  replace (Nat.eqb (length (finishedTasks o)) 0) with false
    by (rewrite Hfin; reflexivity).
  cbn [modifyThis this effects finishedTasks set_finishedTasks].
  rewrite !sort_by_id_filter_length.
  apply Nat.eqb_neq in Hne. rewrite Hne.
  cbn. rewrite <- !app_assoc. reflexivity.
Qed.

(** ** Stepping through monadic code *)

Lemma bind_normal {A B} (c : M A) (k : A -> M B) st st' a :
  c st = (st', Normal a) -> bind c k st = k a st'.
Proof. intros H. unfold bind. now rewrite H. Qed.

Lemma bind_exits {A B} (c : M A) (k : A -> M B) st st' :
  c st = (st', Exits) -> bind c k st = (st', Exits).
Proof. intros H. unfold bind. now rewrite H. Qed.

Lemma bind_throws {A B} (c : M A) (k : A -> M B) st st' e :
  c st = (st', Throws e) -> bind c k st = (st', Throws e).
Proof. intros H. unfold bind. now rewrite H. Qed.

Lemma emit_eq e st :
  emit e st = (mkFinalizing (this st) (effects st ++ [e]), Normal tt).
Proof. reflexivity. Qed.

Lemma logger_eq lvl msg st :
  logger lvl msg st = (mkFinalizing (this st) (effects st ++ [Log lvl msg]), Normal tt).
Proof. reflexivity. Qed.

Lemma cleanupOnly_ret : cleanupOnly (ret tt).
Proof.
  intros st. exists []. rewrite app_nil_r. split; [now destruct st|constructor].
Qed.

Lemma cleanupOnly_info msg : cleanupOnly (logger info msg).
Proof.
  intros st. exists [Log info msg]. split; [reflexivity|].
  constructor; [reflexivity|constructor].
Qed.

Lemma cleanupOnly_bind c1 c2 :
  cleanupOnly c1 -> cleanupOnly c2 -> cleanupOnly (bind c1 (fun _ => c2)).
Proof.
  intros H1 H2 st. destruct (H1 st) as (n1 & E1 & F1).
  destruct (H2 (mkFinalizing (this st) (effects st ++ n1))) as (n2 & E2 & F2).
  exists (n1 ++ n2). rewrite (bind_normal _ _ _ _ _ E1), E2. cbn.
  rewrite app_assoc. split; [reflexivity|]. apply Forall_app. now split.
Qed.

Lemma cleanupOnly_when b c : cleanupOnly c -> cleanupOnly (when b c).
Proof. destruct b; [trivial|]. intros _. apply cleanupOnly_ret. Qed.

Lemma cleanupOnly_forEachFrom {A} (body : nat -> A -> M unit) (a : list A) i :
  (forall j x, cleanupOnly (body j x)) -> cleanupOnly (forEachFrom i a body).
Proof.
  intros H. revert i. induction a as [|x a IH]; intros i; cbn.
  - apply cleanupOnly_ret.
  - apply cleanupOnly_bind; [apply H|apply IH].
Qed.

(** ** C10: nothing was captured *)

Lemma reportOutputs_cleanupOnly items : cleanupOnly (reportOutputs items).
Proof.
  apply cleanupOnly_when. destruct items as [|i1 [|i2 items]].
  - apply cleanupOnly_bind; [apply cleanupOnly_info|].
    apply cleanupOnly_forEachFrom. intros; apply cleanupOnly_info.
  - apply cleanupOnly_info.
  - apply cleanupOnly_bind; [apply cleanupOnly_info|].
    apply cleanupOnly_forEachFrom. intros; apply cleanupOnly_info.
Qed.

(** [clean] leaves the object alone and adds no reassembly effect. *)
Lemma clean_effects env st :
  this (fst (clean env st)) = this st /\
  exists new, effects (fst (clean env st)) = effects st ++ new /\
              Forall (fun e => isReassemblyEffect e = false) new.
Proof.
  destruct st as [o tr]. unfold clean.
  rewrite (bind_normal getThis _ _ _ _ eq_refl). cbn [this].
  unfold deleteDirectory.
  destruct (keepTemporaryFiles o); cbn [negb when].
  - rewrite (bind_normal (ret tt) _ _ _ _ eq_refl).
    rewrite (bind_normal (emit _) _ _ _ _ eq_refl).
    rewrite (bind_normal getThis _ _ _ _ eq_refl). cbn [this].
    match goal with |- context [bind (reportOutputs _) _ ?s] =>
      destruct (reportOutputs_cleanupOnly (outputFiles o) s) as (new & E & F) end.
    rewrite (bind_normal _ _ _ _ _ E). cbn.
    split; [reflexivity|]. rewrite <- !app_assoc. eexists. split; [reflexivity|].
    constructor; [reflexivity|]. apply Forall_app. split; [assumption|].
    constructor; [reflexivity|constructor].
  - destruct (ext_deleteDirectory env (path_resolve [workDirectoryName o])) eqn:Hdel.
    + erewrite bind_normal by reflexivity.
      rewrite (bind_normal (emit _) _ _ _ _ eq_refl).
      rewrite (bind_normal getThis _ _ _ _ eq_refl). cbn [this effects].
      match goal with |- context [bind (reportOutputs _) _ ?s] =>
        destruct (reportOutputs_cleanupOnly (outputFiles o) s) as (new & E & F) end.
      rewrite (bind_normal _ _ _ _ _ E). cbn.
      split; [reflexivity|]. rewrite <- !app_assoc. eexists. split; [reflexivity|].
      repeat (constructor; [reflexivity|]). apply Forall_app. split; [assumption|].
      constructor; [reflexivity|constructor].
    + erewrite bind_throws by reflexivity.
      cbn. split; [reflexivity|]. rewrite <- !app_assoc. eexists. split; [reflexivity|].
      repeat (constructor; [reflexivity|]). constructor.
Qed.

(** C10.  With an empty finished set [beforeExit] is exactly [clean]: the
    object, and with it the list of output files, is unchanged, and no
    error message, concatenation, list file or muxer call is among the
    effects it adds. *)
Theorem empty_capture_goes_to_clean (env : Env) (o : LiveDownloader) (tr : list Effect) :
  finishedTasks o = [] ->
  let r := beforeExit env (mkFinalizing o tr) in
  r = clean env (mkFinalizing o tr) /\
  this (fst r) = o /\
  exists new, effects (fst r) = tr ++ new /\
              Forall (fun e => isReassemblyEffect e = false) new.
Proof.
  intros Hfin r.
  assert (Hr : r = clean env (mkFinalizing o tr)).
  { unfold r, beforeExit, bind, getThis. cbn [this]. rewrite Hfin. reflexivity. }
  split; [exact Hr|]. rewrite Hr.
  apply (clean_effects env (mkFinalizing o tr)).
Qed.

(** ** C9: how the merge loop can end *)

Lemma set_outputFiles_same o : set_outputFiles (outputFiles o ++ []) o = o.
Proof. destruct o. unfold set_outputFiles. cbn. now rewrite app_nil_r. Qed.

Lemma set_outputFiles_twice o l1 l2 :
  set_outputFiles (outputFiles (set_outputFiles (outputFiles o ++ l1) o) ++ l2)
                  (set_outputFiles (outputFiles o ++ l1) o)
  = set_outputFiles (outputFiles o ++ (l1 ++ l2)) o.
Proof. unfold set_outputFiles. cbn. now rewrite app_assoc. Qed.

Lemma getThis_eq st : getThis st = (st, Normal (this st)).
Proof. reflexivity. Qed.

Lemma merge_eq env videoPath audioPath suffix st :
  merge env videoPath audioPath suffix st =
  (mkFinalizing (this st)
     (effects st ++ [RunMuxer (muxerOutputName (this st) suffix)
                              (VideoTrack videoPath) (AudioTrack audioPath)]),
   match ext_muxer env (muxerOutputName (this st) suffix)
                   (VideoTrack videoPath) (AudioTrack audioPath) with
   | Some file => Normal file
   | None => Throws MuxerFailed
   end).
Proof.
  unfold merge, runMuxer, bind, getThis, emit. cbv beta iota. cbn [this effects].
  now destruct (ext_muxer env _ _ _).
Qed.

Lemma mergeSequences_eq env videoList audioList suffix st :
  mergeSequences env videoList audioList suffix st =
  (mkFinalizing (this st)
     (effects st ++ [RunMuxer (muxerOutputName (this st) suffix)
                              (VideoSequence videoList) (AudioSequence audioList)]),
   match ext_muxer env (muxerOutputName (this st) suffix)
                   (VideoSequence videoList) (AudioSequence audioList) with
   | Some file => Normal file
   | None => Throws MuxerFailed
   end).
Proof.
  unfold mergeSequences, runMuxer, bind, getThis, emit. cbv beta iota.
  cbn [this effects]. now destruct (ext_muxer env _ _ _).
Qed.

Lemma mergeFiles_cases env files output st :
  mergeFiles env files output st =
    (mkFinalizing (this st) (effects st ++ [MergeFiles files output]), Normal tt) \/
  mergeFiles env files output st =
    (mkFinalizing (this st) (effects st ++ [MergeFiles files output]),
     Throws MergeFilesRejected).
Proof.
  unfold mergeFiles, bind, emit. cbv beta iota.
  destruct (ext_mergeFiles env files output); [left|right]; reflexivity.
Qed.

Lemma writeFileSync_cases env file data st :
  writeFileSync env file data st =
    (mkFinalizing (this st) (effects st ++ [WriteFileSync file data]), Normal tt) \/
  writeFileSync env file data st =
    (mkFinalizing (this st) (effects st ++ [WriteFileSync file data]),
     Throws WriteFileFailed).
Proof.
  unfold writeFileSync, bind, emit. cbv beta iota.
  destruct (ext_writeFileSync env file data); [left|right]; reflexivity.
Qed.

(** In every environment an iteration ends normally or with the exception
    of a step before its [try] block: what the muxer answers, and what
    happens while the output item is built, never leaves the iteration. *)
Lemma mergeLowLatency_completion env useSuffix i s st :
  stopsOutsideTry (snd (mergeLowLatency env useSuffix i s st)).
Proof.
  unfold mergeLowLatency.
  rewrite (bind_normal _ _ _ _ _ (getThis_eq _)). cbv zeta.
  rewrite (bind_normal _ _ _ _ _ (logger_eq _ _ _)).
  match goal with |- context [bind (mergeFiles env ?f ?o) _ ?s] =>
    destruct (mergeFiles_cases env f o s) as [E|E] end;
    [rewrite (bind_normal _ _ _ _ _ E)
    |rewrite (bind_throws _ _ _ _ _ E); right; left; reflexivity].
  rewrite (bind_normal _ _ _ _ _ (logger_eq _ _ _)).
  match goal with |- context [bind (mergeFiles env ?f ?o) _ ?s] =>
    destruct (mergeFiles_cases env f o s) as [E'|E'] end;
    [rewrite (bind_normal _ _ _ _ _ E')
    |rewrite (bind_throws _ _ _ _ _ E'); right; left; reflexivity].
  rewrite (bind_normal _ _ _ _ _ (logger_eq _ _ _)).
  unfold try_catch, bind at 1. rewrite merge_eq.
  destruct (ext_muxer env _ _ _); left; reflexivity.
Qed.

Lemma mergeLists_completion env useSuffix i s st :
  stopsOutsideTry (snd (mergeLists env useSuffix i s st)).
Proof.
  unfold mergeLists.
  rewrite (bind_normal _ _ _ _ _ (getThis_eq _)). cbv zeta.
  match goal with |- context [bind (writeFileSync env ?f ?o) _ ?s] =>
    destruct (writeFileSync_cases env f o s) as [E|E] end;
    [rewrite (bind_normal _ _ _ _ _ E)
    |rewrite (bind_throws _ _ _ _ _ E); right; right; reflexivity].
  match goal with |- context [bind (writeFileSync env ?f ?o) _ ?s] =>
    destruct (writeFileSync_cases env f o s) as [E'|E'] end;
    [rewrite (bind_normal _ _ _ _ _ E')
    |rewrite (bind_throws _ _ _ _ _ E'); right; right; reflexivity].
  unfold try_catch, bind at 1. rewrite mergeSequences_eq.
  destruct (ext_muxer env _ _ _); [|left; reflexivity].
  destruct s as [|t s']; [left; reflexivity|].
  cbn [head idOf]. destruct (last (t :: s')) as [u|] eqn:Hlast;
    [|now apply last_None in Hlast].
  left. reflexivity.
Qed.

Lemma mergeLoop_completion env useSuffix (seqs : list (list Task)) i st :
  stopsOutsideTry
    (snd (forEachFrom i seqs
            (fun i s =>
               o <- getThis ;;
               if isLowLatencyLiveStream o
               then mergeLowLatency env useSuffix i s
               else mergeLists env useSuffix i s) st)).
Proof.
  revert i st. induction seqs as [|s seqs IH]; intros i st; cbn [forEachFrom].
  - left. reflexivity.
  - set (body := bind getThis _).
    assert (Hbody : stopsOutsideTry (snd (body st))).
    { unfold body. rewrite (bind_normal _ _ _ _ _ (getThis_eq _)).
      destruct (isLowLatencyLiveStream (this st));
        [apply mergeLowLatency_completion|apply mergeLists_completion]. }
    unfold bind at 1. destruct (body st) as [st' [[]| |e]]; cbn [snd] in *.
    + apply IH.
    + exact Hbody.
    + exact Hbody.
Qed.

(** The same for the whole loop. *)
Lemma mergeAll_completion env seqs st :
  stopsOutsideTry (snd (mergeAll env seqs st)).
Proof. unfold mergeAll. apply mergeLoop_completion. Qed.

(** C9, a failure before the muxer is called.  On a low-latency stream
    whose chunk concatenation is rejected, and on an ordinary stream whose
    list file cannot be written, the exception leaves the loop in the first
    iteration: nothing is logged as an error, the muxer is called for no
    sequence, the second sequence is not touched and [clean] does not run. *)
Lemma failure_before_muxing_is_not_caught :
  let seqs := [chunks video [2; 3]; chunks video [7; 8]] in
  let lowLatency :=
    (mergeAll concatFailsEnv seqs ;; clean concatFailsEnv)
      (mkFinalizing (atFinalize [] true) []) in
  let lists :=
    (mergeAll listWriteFailsEnv seqs ;; clean listWriteFailsEnv)
      (mkFinalizing (atFinalize [] false) []) in
  snd lowLatency = Throws MergeFilesRejected /\
  effects (fst lowLatency) =
    [Log info (MsgMergingVideo 1);
     MergeFiles ["/kkr_download_0/video_download/2"; "/kkr_download_0/video_download/3"]
                "/kkr_download_0/video_download/video_merge_0.mp4"] /\
  snd lists = Throws WriteFileFailed /\
  effects (fst lists) =
    [WriteFileSync "/kkr_download_0/video_files_1000.txt"
       (listFileData (atFinalize [] false) "./video_download" (chunks video [2; 3]))].
Proof. vm_compute. repeat split. Qed.

(** ** C1: grouping into sequences *)

Lemma pushToLast_concat (seqs : list (list Task)) t :
  seqs <> [] ->
  concat (pushToLast seqs t) = concat seqs ++ [t] /\ pushToLast seqs t <> [].
Proof.
  intros Hne. destruct seqs as [|s0 seqs0] using rev_ind; [congruence|].
  clear IHseqs0. unfold pushToLast.
  rewrite length_app. cbn [length].
  replace (length seqs0 + 1 - 1)%nat with (length seqs0) by lia.
  rewrite alter_app_r_alt by lia. rewrite Nat.sub_diag. cbn.
  rewrite !concat_app. cbn. rewrite !app_nil_r, app_assoc.
  split; [reflexivity|]. intros H. now apply app_eq_nil in H as [_ H].
Qed.

Lemma groupStep_concat v (seqs : list (list Task)) i cur prev :
  v !! i = Some cur -> v !! (i - 1)%nat = Some prev -> seqs <> [] ->
  concat (groupStep v seqs i) = concat seqs ++ [cur] /\ groupStep v seqs i <> [].
Proof.
  intros Hcur Hprev Hne. unfold groupStep. rewrite Hcur, Hprev.
  destruct (negb (id cur - id prev =? 1)).
  - destruct (pushToLast_concat (seqs ++ [[]]) cur) as [Hc Hn].
    { intros H. now apply app_eq_nil in H as [_ H]. }
    split; [|exact Hn]. rewrite Hc, concat_app. cbn. now rewrite app_nil_r.
  - now apply pushToLast_concat.
Qed.

Lemma groupLoop_concat (v : list Task) k :
  (k <= length v - 1)%nat ->
  let seqs := foldl (groupStep v) [[]] (seq 1 k) in
  seqs <> [] /\ concat seqs = take k (drop 1 v).
Proof.
  induction k as [|k IH]; intros Hk; cbn zeta.
  - cbn. split; [discriminate|]. now rewrite take_0.
  - rewrite seq_S, foldl_app. cbn [foldl].
    destruct IH as [Hne Hcat]; [lia|].
    assert (Hcur : is_Some (v !! (1 + k)%nat)) by (apply lookup_lt_is_Some; lia).
    assert (Hprev : is_Some (v !! (1 + k - 1)%nat)) by (apply lookup_lt_is_Some; lia).
    destruct Hcur as [cur Hcur], Hprev as [prev Hprev].
    destruct (groupStep_concat v _ _ cur prev Hcur Hprev Hne) as [Hc Hn].
    split; [exact Hn|]. rewrite Hc, Hcat.
    symmetry. apply take_S_r. now rewrite lookup_drop.
Qed.

(** Whenever the loop at lines 189-194 is the one that builds [seqs] (any
    number of surviving video tasks but one), the sequences together hold the
    surviving tasks in order without the first one. *)
Lemma groupSeqs_without_first (v : list Task) :
  length v <> 1%nat -> concat (groupSeqs v) = drop 1 v.
Proof.
  intros Hlen.
  assert (Hloop : concat (foldl (groupStep v) [[]] (seq 1 (length v - 1))) = drop 1 v).
  { destruct (groupLoop_concat v (length v - 1) (le_n _)) as [_ H].
    rewrite H. apply take_ge. rewrite length_drop. lia. }
  destruct v as [|t [|u v']]; [exact Hloop|now contradiction Hlen|exact Hloop].
Qed.

(** C1.  For finished video chunks 1, 2, 3, 7, 8, 10 with their audio chunks,
    [beforeExit] reaches the grouping and the sequences it computes are
    [[2,3], [7,8], [10]]: chunk 1 is in none of them. *)
Theorem contiguity_example_drops_first_chunk :
  let finished := chunks video [1; 2; 3; 7; 8; 10] ++ chunks audio [1; 2; 3; 7; 8; 10] in
  sequencesOf finished = Some [[2; 3]; [7; 8]; [10]] /\
  option_map (fun seqs => existsb (Z.eqb 1) (concat seqs)) (sequencesOf finished)
    = Some false.
Proof. vm_compute. split; reflexivity. Qed.

(** ** C2: orphan filtering *)

Lemma orphanFilter_foldl flags v kept (n : Z) :
  foldl
    (fun '(kept, dropCounter) t =>
       let dropCounter' :=
         if negb (arrayTruthy flags) then dropCounter + 1 else dropCounter in
       if flagAt flags (id t) then (kept ++ [t], dropCounter') else (kept, dropCounter'))
    (kept, n) v
  = (kept ++ List.filter (fun t => flagAt flags (id t)) v, n).
Proof.
  revert kept. induction v as [|t v IH]; intros kept; cbn.
  - now rewrite app_nil_r.
  - destruct (flagAt flags (id t)); rewrite IH; [|reflexivity].
    now rewrite <- app_assoc.
Qed.

(** The filter keeps the video tasks whose id is flagged. *)
Lemma orphanFilter_kept flags v :
  fst (orphanFilter flags v) = List.filter (fun t => flagAt flags (id t)) v.
Proof. unfold orphanFilter. now rewrite orphanFilter_foldl. Qed.

(** The counter of line 173 is never raised: its guard tests the array, not
    the entry of the task. *)
Lemma orphanFilter_dropCounter flags v : snd (orphanFilter flags v) = 0.
Proof. unfold orphanFilter. now rewrite orphanFilter_foldl. Qed.

Lemma flagAt_foldl (a : list Task) (m : gmap Z bool) i :
  flagAt (foldl (fun flags audioTask => <[id audioTask := true]> flags) m a) i = true
  <-> In i (map id a) \/ flagAt m i = true.
Proof.
  revert m. induction a as [|t a IH]; intros m; cbn.
  - tauto.
  - assert (Hins : flagAt (<[id t := true]> m) i = true
                    <-> id t = i \/ flagAt m i = true).
    { unfold flagAt. destruct (decide (id t = i)) as [->|Hne].
      - rewrite lookup_insert_eq. tauto.
      - rewrite lookup_insert_ne by assumption. tauto. }
    rewrite IH, Hins. tauto.
Qed.

Lemma flagAt_audioIdFlags a i :
  flagAt (audioIdFlags a) i = true <-> In i (map id a).
Proof.
  unfold audioIdFlags. rewrite flagAt_foldl. unfold flagAt.
  rewrite lookup_empty. intuition discriminate.
Qed.

Lemma isType_true ty t : isType ty t = true <-> type t = ty.
Proof. unfold isType. destruct (type t), ty; cbn; intuition discriminate. Qed.

(** Past the two early exits, [beforeExit] is [reassemble] on the sorted
    tasks of each kind. *)
Lemma beforeExit_reassemble env o tr :
  finishedTasks o <> [] ->
  length (List.filter (isType video) (finishedTasks o))
    = length (List.filter (isType audio) (finishedTasks o)) ->
  beforeExit env (mkFinalizing o tr) =
  reassemble env
    (List.filter (isType video) (sort_by_id (finishedTasks o)))
    (List.filter (isType audio) (sort_by_id (finishedTasks o)))
    (mkFinalizing (set_finishedTasks (sort_by_id (finishedTasks o)) o) tr).
Proof.
  intros Hne Hpar. unfold beforeExit.
  rewrite (bind_normal _ _ _ _ _ (getThis_eq _)). cbn [this].
  destruct (finishedTasks o) as [|t l] eqn:Hfin; [congruence|].
  rewrite <- Hfin in *. replace (Nat.eqb (length (finishedTasks o)) 0) with false
    by (rewrite Hfin; reflexivity).
  rewrite (bind_normal (modifyThis _) _ _ _ _ eq_refl). cbn [this effects].
  rewrite (bind_normal _ _ _ _ _ (getThis_eq _)).
  cbn [this finishedTasks set_finishedTasks]. cbv zeta.
  rewrite !sort_by_id_filter_length, Hpar, Nat.eqb_refl. cbn [negb when].
  now rewrite (bind_normal (ret tt) _ _ _ _ eq_refl).
Qed.

(** C2.  When the finished set is not empty and the parity check
    passes, [beforeExit] goes on to [reassemble], and the video tasks it
    keeps for grouping are the sorted finished video tasks whose id is the
    id of a finished audio task: a video task is kept exactly when it is
    finished, of type video, and some finished audio task has its id, and
    the kept tasks are in ascending id order.  For video ids 1, 2, 3 and
    audio ids 1, 3 the counts differ and nothing is planned. *)
Theorem orphans_discarded_after_parity (env : Env) (o : LiveDownloader)
    (tr : list Effect) :
  let sorted := sort_by_id (finishedTasks o) in
  let finishedVideoTasks := List.filter (isType video) sorted in
  let finishedAudioTasks := List.filter (isType audio) sorted in
  let kept := fst (orphanFilter (audioIdFlags finishedAudioTasks) finishedVideoTasks) in
  (finishedTasks o <> [] ->
   length (List.filter (isType video) (finishedTasks o))
     = length (List.filter (isType audio) (finishedTasks o)) ->
   beforeExit env (mkFinalizing o tr) =
     reassemble env finishedVideoTasks finishedAudioTasks
       (mkFinalizing (set_finishedTasks sorted o) tr) /\
   plannedSeqs (finishedTasks o) = Some (groupSeqs kept) /\
   kept = List.filter
            (fun t => flagAt (audioIdFlags finishedAudioTasks) (id t))
            finishedVideoTasks /\
   (forall t, In t kept <->
      In t (finishedTasks o) /\ type t = video /\
      exists u, In u (finishedTasks o) /\ type u = audio /\ id u = id t) /\
   StronglySorted (fun a b => id a <= id b) kept) /\
  plannedSeqs (chunks video [1; 2; 3] ++ chunks audio [1; 3]) = None.
Proof.
  intros sorted v a kept. split; [|vm_compute; reflexivity].
  intros Hne Hpar. split; [now apply beforeExit_reassemble|].
  split.
  { unfold plannedSeqs.
    replace (Nat.eqb (length (finishedTasks o)) 0) with false
      by (now destruct (finishedTasks o)).
    rewrite !sort_by_id_filter_length, Hpar, Nat.eqb_refl. reflexivity. }
  split; [apply orphanFilter_kept|].
  split; [|unfold kept; rewrite orphanFilter_kept;
           do 2 apply filter_sorted; apply sort_by_id_sorted].
  intros t. unfold kept. rewrite orphanFilter_kept, filter_In, flagAt_audioIdFlags.
  unfold v, a, sorted. rewrite filter_In, sort_by_id_In, isType_true, in_map_iff.
  split.
  - intros [[Hin Hty] (u & Hid & Hu)].
    apply filter_In in Hu as [Hu Htu]. rewrite sort_by_id_In in Hu.
    rewrite isType_true in Htu. eauto 10.
  - intros (Hin & Hty & u & Hu & Htu & Hid). split; [tauto|].
    exists u. split; [assumption|]. apply filter_In.
    rewrite sort_by_id_In, isType_true. tauto.
Qed.

(** C2, the example with video ids 1, 2, 3 and audio ids 1, 3.  The parity
    check stops [beforeExit]: the two error messages and the exit are all
    that happens, no warning about dropped chunks is logged and no sequence
    is planned; and the counter the filter would have produced on these
    tasks is 0, not 1. *)
Lemma orphan_example_is_a_parity_abort :
  let o := atFinalize (chunks video [1; 2; 3] ++ chunks audio [1; 3]) false in
  let r := beforeExit quietEnv (mkFinalizing o []) in
  snd r = Exits /\
  effects (fst r) =
    [Log error MsgChunkCountMismatch;
     Log error (MsgTemporaryFilesAt "/kkr_download_0");
     ProcessExit] /\
  sequencesOf (finishedTasks o) = None /\
  sequencesOf (finishedTasks o) <> Some [[1]; [3]] /\
  snd (orphanFilter (audioIdFlags (chunks audio [1; 3])) (chunks video [1; 2; 3])) = 0.
Proof. vm_compute. repeat split; discriminate. Qed.

(** ** C8: the timeout of a download *)

(** C8.  The timeout [handleTask] passes to [download] is
    [min(45000, 15000 + 15000 * retry)]: 15000 for a task never retried,
    45000 after two failures, and 45000 for every count from 5 on. *)
Theorem timeout_scaling (task : Task) :
  req_timeout (handleTask task) = Z.min 45000 (15000 + 15000 * retry task) /\
  req_timeout (handleTask (set_retry 0 task)) = 15000 /\
  req_timeout (handleTask (set_retry 2 task)) = 45000 /\
  (forall k : nat, req_timeout (handleTask (set_retry (5 + Z.of_nat k) task)) = 45000).
Proof.
  repeat split. intros k. unfold handleTask. cbn [req_timeout retry set_retry]. lia.
Qed.

(** Every download pending in a reachable state was requested with that
    timeout. *)
Lemma pending_timeouts keep lowLatency ffmpeg workDir title evs :
  Forall (fun d => req_timeout (snd d) = Z.min 45000 (15000 + 15000 * retry (fst d)))
         (downloading (run (initial keep lowLatency ffmpeg workDir title) evs)).
Proof.
  assert (H : forall w,
             Forall (fun d => snd d = handleTask (fst d)) (downloading w) ->
             Forall (fun d => snd d = handleTask (fst d)) (downloading (run w evs))).
  { induction evs as [|e evs IH]; intros w Hw; cbn; [assumption|].
    apply IH. unfold step. destruct (exited w); [assumption|].
    destruct e as [ty urls| | |k|k]; try (apply checkQueue_requests; assumption).
    - destruct (negb (stopFlag (self w))); [|assumption].
      apply checkQueue_requests; assumption.
    - destruct (downloading w !! k) as [[task req]|]; [|assumption].
      apply checkQueue_requests. cbn. now apply Forall_delete.
    - destruct (downloading w !! k) as [[task req]|]; [|assumption].
      apply checkQueue_requests. cbn. now apply Forall_delete. }
  specialize (H (initial keep lowLatency ffmpeg workDir title) (List.Forall_nil _)).
  rewrite List.Forall_forall in *. intros [t r] Hin.
  specialize (H _ Hin). cbn in *. now subst r.
Qed.

(** ** C9: what a failure inside the merge loop does *)

Lemma loopTrace_app n m new1 new2 :
  loopTrace n new1 -> loopTrace m new2 -> loopTrace (n + m) (new1 ++ new2).
Proof.
  intros [L1 F1] [L2 F2]. split.
  - rewrite List.filter_app, length_app. congruence.
  - apply Forall_app. now split.
Qed.

Lemma precedingStepsPass_set_outputFiles env items o i s :
  precedingStepsPass env (set_outputFiles items o) i s = precedingStepsPass env o i s.
Proof. reflexivity. Qed.

Lemma muxStepFails_set_outputFiles env items o useSuffix i s :
  muxStepFails env (set_outputFiles items o) useSuffix i s
  = muxStepFails env o useSuffix i s.
Proof. reflexivity. Qed.

Lemma muxAttempt_set_outputFiles env items o useSuffix i :
  muxAttempt env (set_outputFiles items o) useSuffix i = muxAttempt env o useSuffix i.
Proof. reflexivity. Qed.

Lemma mergeFiles_pass env files output st :
  ext_mergeFiles env files output = true ->
  mergeFiles env files output st =
  (mkFinalizing (this st) (effects st ++ [MergeFiles files output]), Normal tt).
Proof. intros H. unfold mergeFiles, bind, emit. cbv beta iota. now rewrite H. Qed.

Lemma mergeFiles_fail env files output st :
  ext_mergeFiles env files output = false ->
  mergeFiles env files output st =
  (mkFinalizing (this st) (effects st ++ [MergeFiles files output]),
   Throws MergeFilesRejected).
Proof. intros H. unfold mergeFiles, bind, emit. cbv beta iota. now rewrite H. Qed.

Lemma writeFileSync_pass env file data st :
  ext_writeFileSync env file data = true ->
  writeFileSync env file data st =
  (mkFinalizing (this st) (effects st ++ [WriteFileSync file data]), Normal tt).
Proof. intros H. unfold writeFileSync, bind, emit. cbv beta iota. now rewrite H. Qed.

Lemma writeFileSync_fail env file data st :
  ext_writeFileSync env file data = false ->
  writeFileSync env file data st =
  (mkFinalizing (this st) (effects st ++ [WriteFileSync file data]),
   Throws WriteFileFailed).
Proof. intros H. unfold writeFileSync, bind, emit. cbv beta iota. now rewrite H. Qed.

Ltac trace_facts :=
  repeat match goal with
  | |- _ /\ _ => split
  | |- loopTrace _ _ => split; [reflexivity|repeat constructor]
  | |- In _ _ => cbn; tauto
  | |- _ -> _ => intros
  | H : true = false |- _ => discriminate H
  | H : false = true |- _ => discriminate H
  | |- Forall _ _ => repeat constructor
  | |- _ = _ => reflexivity
  end.

(** An iteration whose preceding steps go through: whatever the muxer
    answers, the iteration completes. *)
Lemma mergeIteration_pass env useSuffix i s st :
  precedingStepsPass env (this st) i s = true ->
  exists new items,
    mergeIteration env useSuffix i s st =
      (mkFinalizing (set_outputFiles (outputFiles (this st) ++ items) (this st))
                    (effects st ++ new), Normal tt) /\
    loopTrace 1 new /\
    In (muxAttempt env (this st) useSuffix i) new /\
    (muxStepFails env (this st) useSuffix i s = true ->
     In (Log error (MsgMuxFailed (Z.of_nat i + 1))) new).
Proof.
  destruct st as [o tr]. cbn [this effects].
  unfold precedingStepsPass, muxStepFails, muxAttempt, muxAnswer, muxArgs, mergeIteration.
  rewrite (bind_normal _ _ _ _ _ (getThis_eq _)). cbn [this].
  destruct (isLowLatencyLiveStream o) eqn:Hlow; cbv zeta; intros Hpass;
    apply andb_true_iff in Hpass; destruct Hpass as [Hp1 Hp2].
  - unfold mergeLowLatency.
    rewrite (bind_normal _ _ _ _ _ (getThis_eq _)). cbn [this]. cbv zeta.
    rewrite (bind_normal _ _ _ _ _ (logger_eq _ _ _)).
    rewrite (bind_normal _ _ _ _ _ (mergeFiles_pass _ _ _ _ Hp1)).
    rewrite (bind_normal _ _ _ _ _ (logger_eq _ _ _)).
    rewrite (bind_normal _ _ _ _ _ (mergeFiles_pass _ _ _ _ Hp2)).
    rewrite (bind_normal _ _ _ _ _ (logger_eq _ _ _)).
    cbn [this effects]. unfold try_catch.
    unfold bind at 1. rewrite merge_eq. cbn [this effects].
    destruct (ext_muxer env _ _ _) as [file|].
    + unfold pushOutputFile, modifyThis. cbn [this effects negb andb].
      eexists _, [_]. split; [rewrite <- !app_assoc; reflexivity|].
      trace_facts.
    + unfold bind, logger, emit. cbn [this effects].
      eexists _, []. rewrite set_outputFiles_same.
      split; [rewrite <- !app_assoc; reflexivity|].
      trace_facts.
  - unfold mergeLists.
    rewrite (bind_normal _ _ _ _ _ (getThis_eq _)). cbn [this]. cbv zeta.
    rewrite (bind_normal _ _ _ _ _ (writeFileSync_pass _ _ _ _ Hp1)).
    rewrite (bind_normal _ _ _ _ _ (writeFileSync_pass _ _ _ _ Hp2)).
    cbn [this effects]. unfold try_catch.
    unfold bind at 1. rewrite mergeSequences_eq. cbn [this effects].
    destruct (ext_muxer env _ _ _) as [file|].
    + destruct s as [|t s']; cbn [head idOf length Nat.eqb negb andb].
      * unfold bind, throw, logger, emit. cbn [this effects].
        eexists _, []. rewrite set_outputFiles_same.
        split; [rewrite <- !app_assoc; reflexivity|].
        trace_facts.
      * destruct (last (t :: s')) as [u|] eqn:Hlast;
          [|now apply last_None in Hlast].
        unfold bind, ret, idOf, pushOutputFile, modifyThis. cbn [this effects].
        eexists _, [_]. split; [rewrite <- !app_assoc; reflexivity|].
        trace_facts.
    + unfold bind, logger, emit. cbn [this effects].
      eexists _, []. rewrite set_outputFiles_same.
      split; [rewrite <- !app_assoc; reflexivity|].
      trace_facts.
Qed.

(** An iteration one of whose preceding steps fails: the exception leaves
    the iteration at the failing call. *)
Lemma mergeIteration_fail env useSuffix i s st :
  precedingStepsPass env (this st) i s = false ->
  exists new call,
    mergeIteration env useSuffix i s st =
      (mkFinalizing (this st) (effects st ++ new ++ [call]),
       Throws (if isLowLatencyLiveStream (this st)
               then MergeFilesRejected else WriteFileFailed)) /\
    isPrecedingCall call = true /\
    loopTrace 0 new.
Proof.
  destruct st as [o tr]. cbn [this effects].
  unfold precedingStepsPass, mergeIteration.
  rewrite (bind_normal _ _ _ _ _ (getThis_eq _)). cbn [this].
  destruct (isLowLatencyLiveStream o) eqn:Hlow; cbv zeta; intros Hfail;
    apply andb_false_iff in Hfail.
  - unfold mergeLowLatency.
    rewrite (bind_normal _ _ _ _ _ (getThis_eq _)). cbn [this]. cbv zeta.
    rewrite (bind_normal _ _ _ _ _ (logger_eq _ _ _)).
    match goal with |- context [ext_mergeFiles] => idtac | _ => idtac end.
    match type of Hfail with ?a = false \/ _ => destruct a eqn:Hp1 end.
    + destruct Hfail as [Hf|Hp2]; [discriminate|].
      rewrite (bind_normal _ _ _ _ _ (mergeFiles_pass _ _ _ _ Hp1)).
      rewrite (bind_normal _ _ _ _ _ (logger_eq _ _ _)).
      rewrite (bind_throws _ _ _ _ _ (mergeFiles_fail _ _ _ _ Hp2)).
      cbn [this effects].
      eexists [_; _; _], _. split; [rewrite <- !app_assoc; reflexivity|].
      trace_facts.
    + rewrite (bind_throws _ _ _ _ _ (mergeFiles_fail _ _ _ _ Hp1)).
      cbn [this effects].
      eexists [_], _. split; [rewrite <- !app_assoc; reflexivity|].
      trace_facts.
  - unfold mergeLists.
    rewrite (bind_normal _ _ _ _ _ (getThis_eq _)). cbn [this]. cbv zeta.
    match type of Hfail with ?a = false \/ _ => destruct a eqn:Hp1 end.
    + destruct Hfail as [Hf|Hp2]; [discriminate|].
      rewrite (bind_normal _ _ _ _ _ (writeFileSync_pass _ _ _ _ Hp1)).
      rewrite (bind_throws _ _ _ _ _ (writeFileSync_fail _ _ _ _ Hp2)).
      cbn [this effects].
      eexists [_], _. split; [rewrite <- !app_assoc; reflexivity|].
      trace_facts.
    + rewrite (bind_throws _ _ _ _ _ (writeFileSync_fail _ _ _ _ Hp1)).
      cbn [this effects].
      eexists [], _. split; [reflexivity|].
      trace_facts.
Qed.

Lemma mergeLoop_pass env useSuffix (seqs : list (list Task)) :
  forall i0 st,
  (forall j s, seqs !! j = Some s ->
     precedingStepsPass env (this st) (i0 + j) s = true) ->
  exists new items,
    forEachFrom i0 seqs (mergeIteration env useSuffix) st =
      (mkFinalizing (set_outputFiles (outputFiles (this st) ++ items) (this st))
                    (effects st ++ new), Normal tt) /\
    loopTrace (length seqs) new /\
    (forall j, (j < length seqs)%nat ->
       In (muxAttempt env (this st) useSuffix (i0 + j)) new) /\
    (forall j s, seqs !! j = Some s ->
       muxStepFails env (this st) useSuffix (i0 + j) s = true ->
       In (Log error (MsgMuxFailed (Z.of_nat (i0 + j) + 1))) new).
Proof.
  induction seqs as [|s seqs IH]; intros i0 [o tr] Hpass; cbn [this effects] in *.
  - exists [], []. cbn [forEachFrom]. rewrite set_outputFiles_same, app_nil_r.
    split; [reflexivity|]. split; [split; [reflexivity|constructor]|].
    split; [intros j Hj; inversion Hj|intros j s Hj; discriminate].
  - cbn [forEachFrom].
    pose proof (Hpass 0%nat s eq_refl) as Hp0. rewrite Nat.add_0_r in Hp0.
    destruct (mergeIteration_pass env useSuffix i0 s (mkFinalizing o tr) Hp0)
      as (new1 & items1 & E1 & T1 & A1 & F1). cbn [this effects] in *.
    rewrite (bind_normal _ _ _ _ _ E1).
    destruct (IH (S i0) (mkFinalizing (set_outputFiles (outputFiles o ++ items1) o)
                                      (tr ++ new1)))
      as (new2 & items2 & E2 & T2 & A2 & F2).
    { intros j s' Hj. cbn [this]. rewrite precedingStepsPass_set_outputFiles.
      replace (S i0 + j)%nat with (i0 + S j)%nat by lia. now apply Hpass. }
    cbn [this effects] in *. rewrite E2.
    exists (new1 ++ new2), (items1 ++ items2).
    rewrite set_outputFiles_twice, <- (app_assoc tr new1 new2).
    split; [reflexivity|].
    split; [apply (loopTrace_app 1 (length seqs)); assumption|].
    split.
    + intros [|j] Hj; apply in_or_app.
      * left. now rewrite Nat.add_0_r.
      * right. cbn [length] in Hj. apply Nat.succ_lt_mono in Hj.
        replace (i0 + S j)%nat with (S i0 + j)%nat by lia.
        rewrite <- (muxAttempt_set_outputFiles env (outputFiles o ++ items1)).
        now apply A2.
    + intros [|j] s' Hj Hfail; apply in_or_app.
      * left. cbn in Hj. injection Hj as <-. rewrite Nat.add_0_r in *.
        now apply F1.
      * right. cbn in Hj.
        replace (i0 + S j)%nat with (S i0 + j)%nat in * by lia.
        apply (F2 j s' Hj).
        now rewrite muxStepFails_set_outputFiles.
Qed.

Lemma mergeLoop_fail env useSuffix (seqs : list (list Task)) :
  forall i0 st k s,
  seqs !! k = Some s ->
  (forall j s', (j < k)%nat -> seqs !! j = Some s' ->
     precedingStepsPass env (this st) (i0 + j) s' = true) ->
  precedingStepsPass env (this st) (i0 + k) s = false ->
  exists new call items,
    forEachFrom i0 seqs (mergeIteration env useSuffix) st =
      (mkFinalizing (set_outputFiles (outputFiles (this st) ++ items) (this st))
                    (effects st ++ new ++ [call]),
       Throws (if isLowLatencyLiveStream (this st)
               then MergeFilesRejected else WriteFileFailed)) /\
    isPrecedingCall call = true /\
    loopTrace k new.
Proof.
  induction seqs as [|s0 seqs IH]; intros i0 [o tr] k s Hk Hpass Hfail;
    cbn [this effects] in *; [discriminate|].
  cbn [forEachFrom]. destruct k as [|k].
  - cbn in Hk. injection Hk as ->. rewrite Nat.add_0_r in Hfail.
    destruct (mergeIteration_fail env useSuffix i0 s (mkFinalizing o tr) Hfail)
      as (new & call & E & Hcall & T). cbn [this effects] in *.
    rewrite (bind_throws _ _ _ _ _ E).
    exists new, call, []. rewrite set_outputFiles_same.
    split; [reflexivity|]. split; assumption.
  - cbn in Hk.
    assert (Hp0 : precedingStepsPass env o i0 s0 = true).
    { rewrite <- (Nat.add_0_r i0). apply Hpass; [lia|reflexivity]. }
    destruct (mergeIteration_pass env useSuffix i0 s0 (mkFinalizing o tr) Hp0)
      as (new1 & items1 & E1 & T1 & _). cbn [this effects] in *.
    rewrite (bind_normal _ _ _ _ _ E1).
    destruct (IH (S i0) (mkFinalizing (set_outputFiles (outputFiles o ++ items1) o)
                                      (tr ++ new1)) k s Hk)
      as (new2 & call & items2 & E2 & Hcall & T2).
    { intros j s' Hj Hs'. cbn [this]. rewrite precedingStepsPass_set_outputFiles.
      replace (S i0 + j)%nat with (i0 + S j)%nat by lia.
      apply Hpass; [lia|exact Hs']. }
    { cbn [this]. rewrite precedingStepsPass_set_outputFiles.
      now replace (S i0 + k)%nat with (i0 + S k)%nat by lia. }
    cbn [this effects] in *. rewrite E2.
    exists (new1 ++ new2), call, (items1 ++ items2).
    rewrite set_outputFiles_twice.
    replace ((tr ++ new1) ++ new2 ++ [call]) with (tr ++ (new1 ++ new2) ++ [call])
      by now rewrite <- !app_assoc.
    split; [reflexivity|]. split; [assumption|].
    apply (loopTrace_app 1 k); assumption.
Qed.

Lemma report_loop_completes (seqs : list (list Task)) :
  forallb (fun s => negb (Nat.eqb (length s) 0)) seqs = true ->
  forall i st, exists logs,
    forEachFrom i seqs (fun i s =>
      a <- idOf (head s) ;;
      b <- idOf (last s) ;;
      logger info (MsgOutputRange (Z.of_nat i + 1) a b)) st
    = (mkFinalizing (this st) (effects st ++ logs), Normal tt) /\
    loopTrace 0 logs.
Proof.
  induction seqs as [|s seqs IH]; intros Hne i st; cbn [forEachFrom].
  - exists []. rewrite app_nil_r. split; [now destruct st|].
    split; [reflexivity|constructor].
  - cbn [forallb] in Hne. apply andb_true_iff in Hne. destruct Hne as [Hs Hrest].
    destruct s as [|t s]; [discriminate|].
    destruct (last (t :: s)) as [u|] eqn:Hlast; [|now apply last_None in Hlast].
    destruct (IH Hrest (S i)
                (mkFinalizing (this st)
                   (effects st ++ [Log info (MsgOutputRange (Z.of_nat i + 1) (id t) (id u))])))
      as (logs & E & T).
    exists (Log info (MsgOutputRange (Z.of_nat i + 1) (id t) (id u)) :: logs).
    split.
    + rewrite (bind_normal _ _ st
                 (mkFinalizing (this st)
                    (effects st
                     ++ [Log info (MsgOutputRange (Z.of_nat i + 1) (id t) (id u))])) tt);
        [|reflexivity].
      rewrite E. cbn [this effects]. now rewrite <- app_assoc.
    + apply (loopTrace_app 0 0 [_] logs); [|exact T].
      split; [reflexivity|repeat constructor].
Qed.

Lemma report_completes seqs st :
  reportCompletes seqs = true ->
  exists logs,
    report seqs st = (mkFinalizing (this st) (effects st ++ logs), Normal tt) /\
    loopTrace 0 logs.
Proof.
  unfold reportCompletes, report. intros H.
  destruct (Nat.ltb 1 (length seqs)); cbn [negb orb when] in *.
  - rewrite (bind_normal _ _ _ _ _ (logger_eq _ _ _)).
    destruct (report_loop_completes seqs H 0%nat
                (mkFinalizing (this st) (effects st ++ [Log info MsgDiscontinuous])))
      as (logs & E & T).
    exists (Log info MsgDiscontinuous :: logs). rewrite E. cbn [this effects].
    split; [now rewrite <- app_assoc|].
    apply (loopTrace_app 0 0 [_] logs); [|exact T].
    split; [reflexivity|repeat constructor].
  - exists []. rewrite app_nil_r. split; [now destruct st|].
    split; [reflexivity|constructor].
Qed.

(** When a plan is made, [beforeExit] is the report, the merge loop and
    [clean] on the sorted object. *)
Lemma beforeExit_planned env o tr seqs :
  plannedSeqs (finishedTasks o) = Some seqs ->
  beforeExit env (mkFinalizing o tr) =
  (report seqs ;; mergeAll env seqs ;; clean env)
    (mkFinalizing (set_finishedTasks (sort_by_id (finishedTasks o)) o) tr).
Proof.
  unfold plannedSeqs. intros H.
  destruct (Nat.eqb (length (finishedTasks o)) 0) eqn:Hlen; [discriminate|].
  cbv zeta in H.
  destruct (negb (Nat.eqb _ _)) eqn:Hpar in H; [discriminate|].
  injection H as <-.
  apply negb_false_iff, Nat.eqb_eq in Hpar.
  rewrite !sort_by_id_filter_length in Hpar.
  rewrite beforeExit_reassemble;
    [|intros E; rewrite E in Hlen; discriminate|exact Hpar].
  unfold reassemble.
  pose proof (orphanFilter_dropCounter
                (audioIdFlags (List.filter (isType audio) (sort_by_id (finishedTasks o))))
                (List.filter (isType video) (sort_by_id (finishedTasks o)))) as Hd.
  destruct (orphanFilter _ _) as [kept d]. cbn [fst snd] in *. subst d.
  cbn [Z.ltb Z.compare when].
  now rewrite (bind_normal (ret tt) _ _ _ _ eq_refl).
Qed.

(** C9.  Whenever [beforeExit] reaches the merge loop, that is, a plan of
    sequences was made and the report of the sequences completed, the
    following holds in every environment.  If for every sequence the calls
    before its [try] block go through, then the muxer is called once per
    sequence and for every sequence, every sequence whose muxing step fails
    (the muxer reports failure, or the output item cannot be built) has its
    error message logged, nothing of [clean] happens inside the loop, and
    [beforeExit] ends as [clean] does on the state the loop leaves.  If the
    calls before the [try] block go through for the sequences before the
    [i]-th and one of them fails for the [i]-th, then [beforeExit] ends at
    that failing call with its exception: the muxer was called for the [i]
    sequences before, nothing follows the failing call, and [clean] does not
    run. *)
Theorem merge_failure_isolated (env : Env) (o : LiveDownloader) (tr : list Effect)
    (seqs : list (list Task)) :
  plannedSeqs (finishedTasks o) = Some seqs ->
  reportCompletes seqs = true ->
  let o1 := set_finishedTasks (sort_by_id (finishedTasks o)) o in
  let useSuffix := Nat.ltb 1 (length seqs) in
  let r := beforeExit env (mkFinalizing o tr) in
  ((forall i s, seqs !! i = Some s -> precedingStepsPass env o1 i s = true) ->
   exists new items,
     r = clean env (mkFinalizing (set_outputFiles (outputFiles o ++ items) o1)
                                 (tr ++ new)) /\
     loopTrace (length seqs) new /\
     (forall i, (i < length seqs)%nat -> In (muxAttempt env o1 useSuffix i) new) /\
     (forall i s, seqs !! i = Some s ->
        muxStepFails env o1 useSuffix i s = true ->
        In (Log error (MsgMuxFailed (Z.of_nat i + 1))) new)) /\
  (forall i s, seqs !! i = Some s ->
     (forall j s', (j < i)%nat -> seqs !! j = Some s' ->
        precedingStepsPass env o1 j s' = true) ->
     precedingStepsPass env o1 i s = false ->
     exists new call items,
       r = (mkFinalizing (set_outputFiles (outputFiles o ++ items) o1)
                         (tr ++ new ++ [call]),
            Throws (if isLowLatencyLiveStream o
                    then MergeFilesRejected else WriteFileFailed)) /\
       isPrecedingCall call = true /\
       loopTrace i new).
Proof.
  intros Hplan Hrep o1 useSuffix r.
  assert (Hr : r = (report seqs ;; mergeAll env seqs ;; clean env) (mkFinalizing o1 tr))
    by (apply beforeExit_planned; exact Hplan).
  destruct (report_completes seqs (mkFinalizing o1 tr) Hrep) as (logs & Erep & Tlogs).
  cbn [this effects] in Erep.
  rewrite (bind_normal _ _ _ _ _ Erep) in Hr.
  change (mergeAll env seqs) with (forEachFrom 0 seqs (mergeIteration env useSuffix)) in Hr.
  split.
  - intros Hpass.
    destruct (mergeLoop_pass env useSuffix seqs 0%nat (mkFinalizing o1 (tr ++ logs)))
      as (new & items & E & T & Hatt & Hfail); [exact Hpass|].
    cbn [this effects] in *.
    rewrite (bind_normal _ _ _ _ _ E) in Hr.
    exists (logs ++ new), items. rewrite app_assoc.
    split; [exact Hr|].
    split; [apply (loopTrace_app 0 (length seqs)); assumption|].
    split.
    + intros i Hi. apply in_or_app. right. now apply (Hatt i).
    + intros i s Hs Hf. apply in_or_app. right. now apply (Hfail i s).
  - intros i s Hs Hpass Hfail.
    destruct (mergeLoop_fail env useSuffix seqs 0%nat (mkFinalizing o1 (tr ++ logs))
                i s Hs Hpass Hfail)
      as (new & call & items & E & Hcall & T).
    cbn [this effects] in *.
    rewrite (bind_throws _ _ _ _ _ E) in Hr.
    exists (logs ++ new), call, items.
    replace (tr ++ (logs ++ new) ++ [call]) with ((tr ++ logs) ++ new ++ [call])
      by now rewrite <- !app_assoc.
    split; [exact Hr|]. split; [exact Hcall|].
    apply (loopTrace_app 0 i); assumption.
Qed.

(** ** Instances *)

Lemma finalize_exactly_once_witness :
  let evs := [NewChunks video [(1, EmptyString)]; StreamEnd; Downloaded 0;
              NewChunks audio []; StreamEnd] in
  completionCondition (self (run w0 evs)) = true /\
  length (beforeExitCalls (run w0 evs)) = 1%nat.
Proof.
  cbn zeta. split; [vm_compute; reflexivity|].
  apply (proj2 (proj2 (finalize_exactly_once false false true
                         "kkr_download_0" "live" _))).
  vm_compute. reflexivity.
Defined.

Lemma parity_mismatch_aborts_witness :
  let o := atFinalize (chunks video [1; 2; 3] ++ chunks audio [1; 3]) false in
  length (List.filter (isType video) (finishedTasks o))
    <> length (List.filter (isType audio) (finishedTasks o)) /\
  snd (beforeExit quietEnv (mkFinalizing o [])) = Exits.
Proof.
  cbn zeta.
  assert (H : length (List.filter (isType video)
                (finishedTasks (atFinalize (chunks video [1; 2; 3] ++ chunks audio [1; 3]) false)))
              <> length (List.filter (isType audio)
                (finishedTasks (atFinalize (chunks video [1; 2; 3] ++ chunks audio [1; 3]) false)))).
  { vm_compute. discriminate. }
  split; [exact H|].
  rewrite (parity_mismatch_aborts quietEnv _ [] H). reflexivity.
Defined.

Lemma empty_capture_goes_to_clean_witness :
  let o := atFinalize [] false in
  finishedTasks o = [] /\
  beforeExit quietEnv (mkFinalizing o []) = clean quietEnv (mkFinalizing o []).
Proof.
  cbn zeta. split; [reflexivity|].
  apply (empty_capture_goes_to_clean quietEnv (atFinalize [] false) [] eq_refl).
Defined.

Lemma merge_failure_isolated_witness :
  let o := atFinalize (chunks video [1; 2; 3; 7; 8; 10]
                       ++ chunks audio [1; 2; 3; 7; 8; 10]) false in
  let o1 := set_finishedTasks (sort_by_id (finishedTasks o)) o in
  let seqs := [chunks video [2; 3]; chunks video [7; 8]; chunks video [10]] in
  plannedSeqs (finishedTasks o) = Some seqs /\
  reportCompletes seqs = true /\
  muxStepFails firstMuxFailsEnv o1 true 0 (chunks video [2; 3]) = true /\
  (exists new items,
     beforeExit firstMuxFailsEnv (mkFinalizing o [])
     = clean firstMuxFailsEnv
         (mkFinalizing (set_outputFiles (outputFiles o ++ items) o1) ([] ++ new)) /\
     In (Log error (MsgMuxFailed 1)) new /\
     In (muxAttempt firstMuxFailsEnv o1 true 2) new) /\
  precedingStepsPass listWriteFailsEnv o1 0 (chunks video [2; 3]) = false /\
  (exists new call items,
     beforeExit listWriteFailsEnv (mkFinalizing o [])
     = (mkFinalizing (set_outputFiles (outputFiles o ++ items) o1) ([] ++ new ++ [call]),
        Throws WriteFileFailed) /\
     isPrecedingCall call = true /\
     loopTrace 0 new).
Proof.
  cbn zeta.
  assert (Hplan : plannedSeqs (finishedTasks
                    (atFinalize (chunks video [1; 2; 3; 7; 8; 10]
                                 ++ chunks audio [1; 2; 3; 7; 8; 10]) false))
                  = Some [chunks video [2; 3]; chunks video [7; 8]; chunks video [10]])
    by (vm_compute; reflexivity).
  split; [exact Hplan|]. split; [reflexivity|]. split; [vm_compute; reflexivity|].
  split; [|split; [vm_compute; reflexivity|]].
  - destruct (proj1 (merge_failure_isolated firstMuxFailsEnv _ [] _ Hplan eq_refl))
      as (new & items & E & _ & Hatt & Hfail).
    { intros i s _. reflexivity. }
    exists new, items. split; [exact E|]. split.
    + apply (Hfail 0%nat (chunks video [2; 3])); [reflexivity|vm_compute; reflexivity].
    + apply (Hatt 2%nat). cbn [length]. lia.
  - destruct (proj2 (merge_failure_isolated listWriteFailsEnv _ [] _ Hplan eq_refl)
                    0%nat (chunks video [2; 3]) eq_refl)
      as (new & call & items & E & Hcall & T).
    { intros j s' Hj. lia. }
    { vm_compute. reflexivity. }
    exists new, call, items. split; [exact E|]. split; assumption.
Defined.

Lemma orphans_discarded_after_parity_witness :
  let o := atFinalize (chunks video [1; 2; 3] ++ chunks audio [1; 3; 5]) false in
  finishedTasks o <> [] /\
  length (List.filter (isType video) (finishedTasks o))
    = length (List.filter (isType audio) (finishedTasks o)) /\
  (forall t, In t (fst (orphanFilter
                          (audioIdFlags (List.filter (isType audio)
                                           (sort_by_id (finishedTasks o))))
                          (List.filter (isType video) (sort_by_id (finishedTasks o)))))
             <-> In t (finishedTasks o) /\ type t = video /\
                 exists u, In u (finishedTasks o) /\ type u = audio /\ id u = id t).
Proof.
  cbn zeta.
  assert (Hne : finishedTasks
                  (atFinalize (chunks video [1; 2; 3] ++ chunks audio [1; 3; 5]) false)
                <> []) by (vm_compute; discriminate).
  split; [exact Hne|]. split; [reflexivity|].
  apply (proj1 (orphans_discarded_after_parity quietEnv
                  (atFinalize (chunks video [1; 2; 3] ++ chunks audio [1; 3; 5]) false)
                  []) Hne eq_refl).
Defined.

(** * Further properties of the scheduler *)

Lemma latch_idle w : latched w -> latch w = w.
Proof.
  unfold latched, latch. destruct (completionCondition (self w)); [|reflexivity].
  intros H. now rewrite (H eq_refl).
Qed.

Lemma checkQueue_saturated w : saturated (checkQueue w).
Proof.
  apply (checkQueue_cases (fun _ w' => saturated w')); clear w; unfold saturated.
  - intros w H. now right.
  - intros w _ H. now left.
  - intros w task rest _ _ IH. exact IH.
Qed.

Lemma checkQueue_stops w : saturated w -> checkQueue w = latch w.
Proof.
  intros Hsat. funelim (checkQueue w); try reflexivity.
  destruct (latch_fields w) as (Hq' & Hn & Hm & _).
  apply Z.leb_gt in Heq. destruct Hsat as [Hsat|Hsat]; [congruence|lia].
Qed.

(** X1.  Calling [checkQueue] again right after it returned changes nothing:
    whatever the state it was called in, a second call starts no download,
    moves no task and calls [beforeExit] no further time. *)
Theorem checkQueue_idempotent (w : World) :
  checkQueue (checkQueue w) = checkQueue w.
Proof.
  rewrite (checkQueue_stops _ (checkQueue_saturated w)).
  apply latch_idle, checkQueue_latched.
Qed.

Lemma step_saturated w e : saturated w -> saturated (step w e).
Proof.
  intros H. unfold step. destruct (exited w); [assumption|].
  destruct e as [ty urls| | |k|k]; try apply checkQueue_saturated.
  - destruct (negb (stopFlag (self w))); [apply checkQueue_saturated|assumption].
  - destruct (downloading w !! k) as [[task req]|]; [apply checkQueue_saturated|assumption].
  - destruct (downloading w !! k) as [[task req]|]; [apply checkQueue_saturated|assumption].
Qed.

Lemma run_saturated w evs : saturated w -> saturated (run w evs).
Proof.
  revert w. induction evs as [|e evs IH]; intros w H; cbn; [assumption|].
  apply IH. now apply step_saturated.
Qed.

(** X2.  Between two handlers no task waits while a slot is free: in every
    state a run can reach, the queue is empty or exactly 16 downloads are
    running. *)
Theorem no_idle_slot keep lowLatency ffmpeg workDir title (evs : list Event) :
  let w := run (initial keep lowLatency ffmpeg workDir title) evs in
  unfinishedTasks (self w) = [] \/ nowRunningThreads (self w) = 16.
Proof.
  intros w.
  assert (Hsat : saturated w) by (apply run_saturated; left; reflexivity).
  destruct (run_Inv _ evs (initial_Inv keep lowLatency ffmpeg workDir title))
    as (_ & Hbnd & Hmax & _).
  fold w in Hbnd, Hmax. unfold bounded in Hbnd.
  destruct Hsat as [H|H]; [now left|right; lia].
Qed.

(** X3.  Called below or at the cap, [checkQueue] starts the first [n] tasks
    of the queue, [n] being the smaller of the queue's length and the number
    of free slots: the queue keeps the rest in order, the counter grows by
    [n], and the downloads are issued with the request of [handleTask], the
    task dequeued last first. *)
Theorem checkQueue_starts_queue_prefix (w : World) :
  nowRunningThreads (self w) <= maxRunningThreads (self w) ->
  let n := startable w in
  unfinishedTasks (self (checkQueue w)) = drop n (unfinishedTasks (self w)) /\
  downloading (checkQueue w) =
    downloading w
    ++ map (fun t => (t, handleTask t)) (rev (take n (unfinishedTasks (self w)))) /\
  nowRunningThreads (self (checkQueue w)) = nowRunningThreads (self w) + Z.of_nat n.
Proof.
  apply (checkQueue_cases (fun w w' =>
    nowRunningThreads (self w) <= maxRunningThreads (self w) ->
    let n := startable w in
    unfinishedTasks (self w') = drop n (unfinishedTasks (self w)) /\
    downloading w' =
      downloading w
      ++ map (fun t => (t, handleTask t)) (rev (take n (unfinishedTasks (self w)))) /\
    nowRunningThreads (self w') = nowRunningThreads (self w) + Z.of_nat n));
    clear w; unfold startable.
  - intros w Hcap Hle.
    destruct (latch_fields w) as (Hq & Hn & Hm & _ & _ & Hd & _).
    rewrite Hn, Hm in Hcap.
    replace (Z.to_nat (maxRunningThreads (self w) - nowRunningThreads (self w)))
      with 0%nat by lia.
    rewrite Nat.min_0_r. cbn. rewrite drop_0, app_nil_r, Hq, Hd, Hn.
    repeat split; lia.
  - intros w _ Hempty Hle.
    destruct (latch_fields w) as (Hq & Hn & Hm & _ & _ & Hd & _).
    rewrite Hq in Hempty. rewrite Hempty. cbn.
    rewrite app_nil_r, Hq, Hd, Hn, Hempty. repeat split; lia.
  - intros w task rest Hlt Hq IH Hle.
    destruct (latch_fields w) as (Hq' & Hn & Hm & _ & _ & Hd & _).
    rewrite Hq' in Hq. rewrite Hn, Hm in Hlt.
    destruct IH as (IHq & IHd & IHn); [cbn; lia|].
    cbn in IHq, IHd, IHn. rewrite Hn, Hm, Hd in *.
    rewrite Hq. cbn [length].
    set (free := Z.to_nat (maxRunningThreads (self w) - nowRunningThreads (self w))).
    assert (Hfree : (free = S (Z.to_nat (maxRunningThreads (self w)
                                          - (nowRunningThreads (self w) + 1))))%nat)
      by (unfold free; lia).
    rewrite Hfree, <- Nat.succ_min_distr. cbn [drop take rev].
    cbn [self unfinishedTasks nowRunningThreads downloading await_handleTask].
    rewrite IHq, IHd, IHn. rewrite map_app, app_assoc. cbn [map].
    repeat split; lia.
Qed.

Lemma checkQueue_starts_queue_prefix_witness :
  let w := on_self (set_unfinishedTasks (chunks video [1; 2; 3])) w0 in
  nowRunningThreads (self w) <= maxRunningThreads (self w) /\
  unfinishedTasks (self (checkQueue w)) = [] /\
  map (fun d => id (fst d)) (downloading (checkQueue w)) = [3; 2; 1].
Proof.
  cbn zeta.
  assert (H : nowRunningThreads (self (on_self (set_unfinishedTasks
                (chunks video [1; 2; 3])) w0))
              <= maxRunningThreads (self (on_self (set_unfinishedTasks
                (chunks video [1; 2; 3])) w0))) by (vm_compute; discriminate).
  split; [exact H|].
  destruct (checkQueue_starts_queue_prefix _ H) as (Hq & Hd & _).
  split.
  - rewrite Hq. reflexivity.
  - rewrite Hd. reflexivity.
Defined.

Lemma latch_calls_drained w :
  Forall (fun o => completionCondition o = true /\ finishFlag o = true)
         (beforeExitCalls w) ->
  Forall (fun o => completionCondition o = true /\ finishFlag o = true)
         (beforeExitCalls (latch w)).
Proof.
  intros H. unfold latch.
  destruct (completionCondition (self w)) eqn:Hc; [|assumption].
  destruct (finishFlag (self w)); cbn; [assumption|].
  apply Forall_app. split; [assumption|].
  constructor; [|constructor]. split; [exact Hc|reflexivity].
Qed.

Lemma checkQueue_calls_drained w :
  Forall (fun o => completionCondition o = true /\ finishFlag o = true)
         (beforeExitCalls w) ->
  Forall (fun o => completionCondition o = true /\ finishFlag o = true)
         (beforeExitCalls (checkQueue w)).
Proof.
  apply (checkQueue_cases (fun w w' =>
    Forall (fun o => completionCondition o = true /\ finishFlag o = true)
           (beforeExitCalls w) ->
    Forall (fun o => completionCondition o = true /\ finishFlag o = true)
           (beforeExitCalls w'))); clear w.
  - intros w _. apply latch_calls_drained.
  - intros w _ _. apply latch_calls_drained.
  - intros w task rest _ _ IH H. cbn. apply IH. cbn.
    now apply latch_calls_drained.
Qed.

(** X4.  [beforeExit] is only ever called on a drained scheduler: every call
    a run makes receives an object with no running download, an empty queue,
    the stop flag set and the finish flag already raised. *)
Theorem beforeExit_called_when_drained keep lowLatency ffmpeg workDir title
    (evs : list Event) :
  Forall (fun o => nowRunningThreads o = 0 /\ unfinishedTasks o = [] /\
                   stopFlag o = true /\ finishFlag o = true)
         (beforeExitCalls (run (initial keep lowLatency ffmpeg workDir title) evs)).
Proof.
  assert (H : forall w,
    Forall (fun o => completionCondition o = true /\ finishFlag o = true)
           (beforeExitCalls w) ->
    Forall (fun o => completionCondition o = true /\ finishFlag o = true)
           (beforeExitCalls (run w evs))).
  { induction evs as [|e evs IH]; intros w Hw; cbn; [assumption|].
    apply IH. unfold step. destruct (exited w); [assumption|].
    destruct e as [ty urls| | |k|k]; try (apply checkQueue_calls_drained; assumption).
    - destruct (negb (stopFlag (self w))); [|assumption].
      apply checkQueue_calls_drained; assumption.
    - destruct (downloading w !! k) as [[task req]|]; [|assumption].
      apply checkQueue_calls_drained; assumption.
    - destruct (downloading w !! k) as [[task req]|]; [|assumption].
      unfold onDownloadFailed. apply checkQueue_calls_drained.
      cbn. destruct (retry task + 1 <=? 10); assumption. }
  eapply List.Forall_impl; [|apply H; constructor].
  intros o [Hc Hf]. unfold completionCondition in Hc.
  apply andb_prop in Hc as [Hc Hs]. apply andb_prop in Hc as [Hn Hq].
  apply Z.eqb_eq in Hn. apply Nat.eqb_eq in Hq.
  repeat split; try assumption. now destruct (unfinishedTasks o).
Qed.

Lemma checkQueue_keeps_finished t w :
  In t (finishedTasks (self w)) -> In t (finishedTasks (self (checkQueue w))).
Proof.
  apply (checkQueue_cases (fun w w' =>
    In t (finishedTasks (self w)) -> In t (finishedTasks (self w')))); clear w.
  - intros w _. latch_cases w; try tauto. apply sort_by_id_In.
  - intros w _ _. latch_cases w; try tauto. apply sort_by_id_In.
  - intros w task rest _ _ IH H. cbn. apply IH. cbn.
    revert H. latch_cases w; try tauto. apply sort_by_id_In.
Qed.

(** X5.  A finished task stays finished: whatever events follow, a task that
    is in [finishedTasks] is still there afterwards (the sort at finalize
    moves it, nothing removes it). *)
Theorem finished_task_is_kept (w : World) (evs : list Event) (t : Task) :
  In t (finishedTasks (self w)) -> In t (finishedTasks (self (run w evs))).
Proof.
  revert w. induction evs as [|e evs IH]; intros w H; cbn; [assumption|].
  apply IH. unfold step. destruct (exited w); [assumption|].
  destruct e as [ty urls| | |k|k]; try (apply checkQueue_keeps_finished; assumption).
  - destruct (negb (stopFlag (self w))); [|assumption].
    apply checkQueue_keeps_finished; assumption.
  - destruct (downloading w !! k) as [[task req]|]; [|assumption].
    apply checkQueue_keeps_finished. cbn. apply in_or_app. now left.
  - destruct (downloading w !! k) as [[task req]|]; [|assumption].
    unfold onDownloadFailed. apply checkQueue_keeps_finished.
    cbn. destruct (retry task + 1 <=? 10); assumption.
Qed.

Lemma finished_task_is_kept_witness :
  let t := newTask "kkr_download_0" video (1, EmptyString) in
  let w := run w0 [NewChunks video [(1, EmptyString)]; Downloaded 0] in
  In t (finishedTasks (self w)) /\
  In t (finishedTasks (self (run w [NewChunks audio [(1, EmptyString)];
                                    DownloadFailed 0; StreamEnd; Downloaded 0]))).
Proof.
  cbn zeta.
  assert (H : In (newTask "kkr_download_0" video (1, EmptyString))
                 (finishedTasks (self (run w0 [NewChunks video [(1, EmptyString)];
                                               Downloaded 0]))))
    by (vm_compute; left; reflexivity).
  split; [exact H|]. apply finished_task_is_kept. exact H.
Defined.

Lemma latch_tracked P w : tracked P w -> tracked P (latch w).
Proof.
  unfold tracked. latch_cases w; try tauto.
  intros (Hq & Hd & Hf). repeat split; try assumption.
  now apply Forall_sort_by_id.
Qed.

Lemma checkQueue_tracked P w : tracked P w -> tracked P (checkQueue w).
Proof.
  apply (checkQueue_cases (fun w w' => tracked P w -> tracked P w')); clear w.
  - intros w _. apply latch_tracked.
  - intros w _ _. apply latch_tracked.
  - intros w task rest _ Hq IH H.
    apply latch_tracked in H. destruct H as (Hu & Hd & Hf).
    rewrite Hq in Hu. inversion Hu as [|? ? Htask Hrest]; subst.
    destruct IH as (Hu' & Hd' & Hf'); [repeat split; assumption|].
    repeat split; cbn; try assumption.
    apply Forall_app. split; [assumption|]. constructor; [assumption|constructor].
Qed.

(** A property that new tasks have and a retry within the budget keeps holds
    for every task the scheduler accounts for. *)
Lemma run_tracked (P : Task -> Prop) w evs :
  (forall workDir ty u, P (newTask workDir ty u)) ->
  (forall t, P t -> retry t + 1 <= 10 -> P (set_retry (retry t + 1) t)) ->
  tracked P w -> tracked P (run w evs).
Proof.
  intros Hnew Hretry. revert w.
  induction evs as [|e evs IH]; intros w Hw; cbn; [assumption|].
  apply IH. destruct Hw as (Hu & Hd & Hf).
  unfold step. destruct (exited w); [repeat split; assumption|].
  destruct e as [ty urls| | |k|k].
  - apply checkQueue_tracked. repeat split; cbn; try assumption.
    apply Forall_app. split; [assumption|].
    apply List.Forall_forall. intros t Ht. apply in_map_iff in Ht.
    destruct Ht as (u & <- & _). apply Hnew.
  - apply checkQueue_tracked. repeat split; assumption.
  - destruct (negb (stopFlag (self w))).
    + apply checkQueue_tracked. repeat split; assumption.
    + repeat split; assumption.
  - destruct (downloading w !! k) as [[task req]|] eqn:Hk;
      [|repeat split; assumption].
    assert (Htask : P task).
    { apply list_elem_of_lookup_2 in Hk. apply list_elem_of_In in Hk.
      rewrite List.Forall_forall in Hd. apply (Hd _ Hk). }
    apply checkQueue_tracked. repeat split; cbn.
    + assumption.
    + now apply Forall_delete.
    + apply Forall_app. split; [assumption|]. constructor; [assumption|constructor].
  - destruct (downloading w !! k) as [[task req]|] eqn:Hk;
      [|repeat split; assumption].
    assert (Htask : P task).
    { apply list_elem_of_lookup_2 in Hk. apply list_elem_of_In in Hk.
      rewrite List.Forall_forall in Hd. apply (Hd _ Hk). }
    unfold onDownloadFailed. apply checkQueue_tracked. repeat split; cbn.
    + destruct (retry task + 1 <=? 10) eqn:Hle; cbn; [|assumption].
      apply Forall_app. split; [assumption|].
      constructor; [|constructor]. apply Hretry; [assumption|now apply Z.leb_le].
    + now apply Forall_delete.
    + destruct (retry task + 1 <=? 10); cbn; assumption.
Qed.

(** X6.  In every state a run can reach, each task that is queued, being
    downloaded or finished has failed between 0 and 10 times, and each
    pending download was requested with a timeout of 15000, 30000 or 45000
    milliseconds. *)
Theorem retries_and_timeouts_in_range keep lowLatency ffmpeg workDir title
    (evs : list Event) :
  let w := run (initial keep lowLatency ffmpeg workDir title) evs in
  Forall (fun t => 0 <= retry t <= 10) (unfinishedTasks (self w)) /\
  Forall (fun t => 0 <= retry t <= 10) (finishedTasks (self w)) /\
  Forall (fun d => 0 <= retry (fst d) <= 10 /\
                   (req_timeout (snd d) = 15000 \/ req_timeout (snd d) = 30000 \/
                    req_timeout (snd d) = 45000))
         (downloading w).
Proof.
  intros w.
  assert (Ht : tracked (fun t => 0 <= retry t <= 10) w).
  { apply run_tracked.
    - intros. cbn. lia.
    - intros t H Hle. cbn. lia.
    - repeat split; constructor. }
  destruct Ht as (Hu & Hd & Hf). repeat split; try assumption.
  pose proof (pending_timeouts keep lowLatency ffmpeg workDir title evs) as Hto.
  fold w in Hto. rewrite List.Forall_forall in *.
  intros d Hin. specialize (Hd d Hin). specialize (Hto d Hin). cbn in Hd.
  split; [assumption|]. rewrite Hto. lia.
Qed.

Lemma checkQueue_stopFlag w : stopFlag (self (checkQueue w)) = stopFlag (self w).
Proof.
  apply (checkQueue_cases (fun w w' => stopFlag (self w') = stopFlag (self w)));
    clear w.
  - intros w _. apply latch_fields.
  - intros w _ _. apply latch_fields.
  - intros w task rest _ _ IH. cbn in *. rewrite IH. apply latch_fields.
Qed.

Lemma run_exited w evs : exited w = true -> run w evs = w.
Proof.
  intros H. induction evs as [|e evs IH]; cbn; [reflexivity|].
  unfold step at 2. rewrite H. exact IH.
Qed.

Lemma latch_not_complete w : completionCondition (self w) = false -> latch w = w.
Proof. unfold latch. now intros ->. Qed.

(** While something is still running or queued, [checkQueue] does not call
    [beforeExit]. *)
Lemma checkQueue_no_call w :
  0 <= nowRunningThreads (self w) ->
  completionCondition (self w) = false ->
  beforeExitCalls (checkQueue w) = beforeExitCalls w.
Proof.
  apply (checkQueue_cases (fun w w' =>
    0 <= nowRunningThreads (self w) ->
    completionCondition (self w) = false ->
    beforeExitCalls w' = beforeExitCalls w)); clear w.
  - intros w _ _ Hc. now rewrite latch_not_complete.
  - intros w _ _ _ Hc. now rewrite latch_not_complete.
  - intros w task rest _ _ IH Hn Hc.
    rewrite (latch_not_complete w Hc) in *. cbn in *.
    apply IH; [lia|].
    unfold completionCondition. cbn.
    replace (nowRunningThreads (self w) + 1 =? 0) with false; [reflexivity|].
    symmetry. apply Z.eqb_neq. lia.
Qed.

(** X7.  The two interrupts.  The first one (stop flag not yet set) sets the
    flag and discards nothing: the tasks queued, being downloaded or finished
    are as many as before.  While a download is running or a task is queued,
    that handler does not call [beforeExit] and the process goes on; when
    nothing is, it calls [beforeExit] on the object with both flags set, and
    what becomes of the process is up to [beforeExit].  An interrupt that
    finds the stop flag set ends the process on the spot: the object is left
    as it is, [beforeExit] is not called, and no later event changes
    anything. *)
Theorem interrupt_drains_then_exits (w : World) :
  exited w = false ->
  0 <= nowRunningThreads (self w) ->
  (stopFlag (self w) = false ->
     stopFlag (self (step w Sigint)) = true /\
     accounted (step w Sigint) = accounted w /\
     (nowRunningThreads (self w) <> 0 \/ unfinishedTasks (self w) <> [] ->
        exited (step w Sigint) = false /\
        beforeExitCalls (step w Sigint) = beforeExitCalls w) /\
     (nowRunningThreads (self w) = 0 -> unfinishedTasks (self w) = [] ->
      finishFlag (self w) = false ->
        beforeExitCalls (step w Sigint)
        = beforeExitCalls w ++ [set_finishFlag true (set_stopFlag true (self w))])) /\
  (stopFlag (self w) = true ->
     exited (step w Sigint) = true /\
     self (step w Sigint) = self w /\
     beforeExitCalls (step w Sigint) = beforeExitCalls w /\
     forall evs, run (step w Sigint) evs = step w Sigint).
Proof.
  intros Hex Hn. unfold step. rewrite Hex. split; intros Hstop; rewrite Hstop; cbn [negb].
  - rewrite checkQueue_stopFlag, checkQueue_accounted.
    split; [reflexivity|]. split; [reflexivity|]. split.
    + intros Hbusy. rewrite checkQueue_exited. split; [exact Hex|].
      rewrite checkQueue_no_call; [reflexivity|exact Hn|].
      unfold completionCondition. cbn.
      destruct Hbusy as [Hr|Hq].
      * apply Z.eqb_neq in Hr. now rewrite Hr.
      * destruct (unfinishedTasks (self w)); [congruence|].
        cbn. now rewrite andb_false_r.
    + intros Hr Hq Hfin.
      rewrite checkQueue_stops by (left; cbn; exact Hq).
      unfold latch, completionCondition. cbn. rewrite Hr, Hq, Hfin. reflexivity.
  - repeat split. intros evs. now apply run_exited.
Qed.

Lemma interrupt_drains_then_exits_witness :
  let busy := run w0 [NewChunks video [(1, EmptyString)]] in
  let drained := run w0 [NewChunks video [(1, EmptyString)]; Downloaded 0] in
  exited (step busy Sigint) = false /\
  beforeExitCalls (step busy Sigint) = [] /\
  length (beforeExitCalls (step drained Sigint)) = 1%nat /\
  exited (step (step busy Sigint) Sigint) = true /\
  beforeExitCalls (step (step busy Sigint) Sigint) = [].
Proof.
  cbn zeta.
  pose proof (interrupt_drains_then_exits
                (run w0 [NewChunks video [(1, EmptyString)]])
                eq_refl ltac:(vm_compute; discriminate)) as [Hbusy _].
  pose proof (interrupt_drains_then_exits
                (run w0 [NewChunks video [(1, EmptyString)]; Downloaded 0])
                eq_refl ltac:(vm_compute; discriminate)) as [Hdrained _].
  pose proof (interrupt_drains_then_exits
                (step (run w0 [NewChunks video [(1, EmptyString)]]) Sigint)
                eq_refl ltac:(vm_compute; discriminate)) as [_ Hsecond].
  destruct (Hbusy eq_refl) as (_ & _ & Hgo & _).
  destruct (Hgo ltac:(left; vm_compute; discriminate)) as [He Hc].
  destruct (Hdrained eq_refl) as (_ & _ & _ & Hcall).
  destruct (Hsecond eq_refl) as (He2 & _ & Hc2 & _).
  split; [exact He|]. split; [exact Hc|]. split.
  - rewrite (Hcall eq_refl eq_refl eq_refl). reflexivity.
  - split; [exact He2|]. rewrite Hc2. exact Hc.
Defined.

(** X8.  What is conserved.  Along every run the tasks received from the
    observer are those still queued, being downloaded or finished plus those
    whose eleventh failure removed them; once the completion condition holds,
    the finished tasks and the removed ones add up to the tasks received. *)
Theorem received_tasks_finished_or_exhausted keep lowLatency ffmpeg workDir title
    (evs : list Event) :
  let start := initial keep lowLatency ffmpeg workDir title in
  let w := run start evs in
  (accounted w + exhausted start evs = discovered start evs)%nat /\
  (completionCondition (self w) = true ->
   (length (finishedTasks (self w)) + exhausted start evs = discovered start evs)%nat).
Proof.
  intros start w.
  pose proof (accounted_plus_exhausted start evs) as Hacc. fold w in Hacc.
  change (accounted start) with 0%nat in Hacc. split; [exact Hacc|].
  intros Hc.
  destruct (run_Inv _ evs (initial_Inv keep lowLatency ffmpeg workDir title))
    as (Hbal & _).
  fold start in Hbal. fold w in Hbal. unfold balanced in Hbal.
  unfold completionCondition in Hc.
  apply andb_prop in Hc as [Hc _]. apply andb_prop in Hc as [Hn Hq].
  apply Z.eqb_eq in Hn. apply Nat.eqb_eq in Hq.
  unfold accounted in Hacc. rewrite Hq in Hacc.
  assert (length (downloading w) = 0%nat) by lia. lia.
Qed.

(** ** No chunk is downloaded twice *)

Lemma insert_by_id_Permutation t l : Permutation (t :: l) (insert_by_id t l).
Proof.
  induction l as [|u l IH]; cbn; [reflexivity|].
  destruct (id t <=? id u); [reflexivity|].
  rewrite perm_swap. now constructor.
Qed.

Lemma sort_by_id_Permutation l : Permutation l (sort_by_id l).
Proof.
  induction l as [|t l IH]; cbn; [reflexivity|].
  rewrite <- insert_by_id_Permutation. now constructor.
Qed.

Lemma trackedChunks_eq w :
  trackedChunks w =
  map chunkOf (unfinishedTasks (self w))
  ++ map chunkOf (map fst (downloading w))
  ++ map chunkOf (finishedTasks (self w)).
Proof. unfold trackedChunks. now rewrite !List.map_app. Qed.

Lemma latch_trackedChunks w : Permutation (trackedChunks (latch w)) (trackedChunks w).
Proof.
  unfold trackedChunks. latch_cases w; try reflexivity.
  apply Permutation_map. do 2 apply Permutation_app_head.
  symmetry. apply sort_by_id_Permutation.
Qed.

Lemma await_handleTask_trackedChunks task w :
  Permutation (trackedChunks (await_handleTask task w)) (chunkOf task :: trackedChunks w).
Proof.
  rewrite !trackedChunks_eq. cbn [await_handleTask self downloading].
  rewrite !List.map_app. cbn [map fst]. rewrite <- app_assoc. cbn [app].
  rewrite <- !Permutation_middle. reflexivity.
Qed.

Lemma checkQueue_trackedChunks w :
  Permutation (trackedChunks (checkQueue w)) (trackedChunks w).
Proof.
  apply (checkQueue_cases (fun w w' => Permutation (trackedChunks w') (trackedChunks w)));
    clear w.
  - intros w _. apply latch_trackedChunks.
  - intros w _ _. apply latch_trackedChunks.
  - intros w task rest _ Hq IH.
    rewrite await_handleTask_trackedChunks, IH, <- (latch_trackedChunks w).
    rewrite !trackedChunks_eq. cbn. rewrite Hq. reflexivity.
Qed.

(** A pending download that is resumed leaves the pending ones. *)
Lemma resume_chunks w k task req :
  downloading w !! k = Some (task, req) ->
  Permutation (map chunkOf (map fst (downloading w)))
              (chunkOf task :: map chunkOf (map fst (delete k (downloading w)))).
Proof.
  intros Hk. rewrite (delete_Permutation _ _ _ Hk) at 1. reflexivity.
Qed.

Lemma step_trackedChunks w e :
  trackedChunks (step w e) ⊆+ trackedChunks w ++ announced w [e].
Proof.
  cbn [announced]. rewrite app_nil_r. unfold step.
  destruct (exited w); [rewrite app_nil_r; reflexivity|].
  destruct e as [ty urls| | |k|k].
  - rewrite checkQueue_trackedChunks. apply Permutation_submseteq.
    rewrite !trackedChunks_eq. cbn.
    rewrite List.map_app, List.map_map. cbn.
    rewrite <- !app_assoc. apply Permutation_app_head.
    rewrite (app_assoc _ _ (map _ urls)). apply Permutation_app_comm.
  - rewrite checkQueue_trackedChunks, app_nil_r. reflexivity.
  - rewrite app_nil_r. destruct (negb (stopFlag (self w))).
    + rewrite checkQueue_trackedChunks. reflexivity.
    + reflexivity.
  - rewrite app_nil_r.
    destruct (downloading w !! k) as [[task req]|] eqn:Hk; [|reflexivity].
    unfold onDownloaded. rewrite checkQueue_trackedChunks.
    apply Permutation_submseteq.
    rewrite !trackedChunks_eq. cbn. rewrite (resume_chunks _ _ _ _ Hk).
    rewrite List.map_app. cbn [map app].
    rewrite <- !Permutation_middle. rewrite app_nil_r. reflexivity.
  - rewrite app_nil_r.
    destruct (downloading w !! k) as [[task req]|] eqn:Hk; [|reflexivity].
    unfold onDownloadFailed. rewrite checkQueue_trackedChunks.
    rewrite !trackedChunks_eq. rewrite (resume_chunks _ _ _ _ Hk). cbn.
    destruct (retry task + 1 <=? 10); cbn.
    + apply Permutation_submseteq.
      rewrite List.map_app. cbn [map app].
      rewrite <- !Permutation_middle. rewrite app_nil_r. reflexivity.
    + rewrite <- !Permutation_middle. apply submseteq_cons. reflexivity.
Qed.

Lemma submseteq_keeps_NoDup {A} (l k : list A) : l ⊆+ k -> NoDup k -> NoDup l.
Proof.
  intros Hsub Hnd. apply submseteq_Permutation in Hsub as [k' Hk].
  rewrite Hk in Hnd. apply NoDup_app in Hnd. apply Hnd.
Qed.

Lemma announced_cons w e evs :
  announced w (e :: evs) = announced w [e] ++ announced (step w e) evs.
Proof. cbn. rewrite app_nil_r. reflexivity. Qed.

Lemma run_trackedChunks w evs :
  trackedChunks (run w evs) ⊆+ trackedChunks w ++ announced w evs.
Proof.
  revert w. induction evs as [|e evs IH]; intros w.
  - cbn. rewrite app_nil_r. reflexivity.
  - change (run w (e :: evs)) with (run (step w e) evs).
    rewrite announced_cons, app_assoc.
    etransitivity; [apply IH|].
    apply submseteq_skips_r, step_trackedChunks.
Qed.

(** X17.  No chunk is downloaded twice: as long as the observer announces no
    chunk (track and id) a second time, no two of the tasks that are queued,
    being downloaded or finished stand for the same chunk, retries
    included. *)
Theorem no_chunk_twice keep lowLatency ffmpeg workDir title (evs : list Event) :
  let start := initial keep lowLatency ffmpeg workDir title in
  NoDup (announced start evs) -> NoDup (trackedChunks (run start evs)).
Proof.
  intros start Hnd.
  eapply submseteq_keeps_NoDup; [|exact Hnd].
  apply (run_trackedChunks start evs).
Qed.

Lemma no_chunk_twice_witness :
  NoDup (trackedChunks
           (run w0 [NewChunks video [(1, EmptyString); (2, EmptyString)];
                    NewChunks audio [(1, EmptyString)];
                    Downloaded 0; DownloadFailed 0])).
Proof.
  apply (no_chunk_twice false false true "kkr_download_0" "live").
  vm_compute.
  repeat (apply NoDup_cons_2;
          [rewrite ?elem_of_cons, elem_of_nil; intuition congruence|]).
  apply NoDup_nil_2.
Defined.

(** * Further properties of finalize *)

(** ** The grouping loop *)

Lemma pushToLast_snoc (init : list (list Task)) lst t :
  pushToLast (init ++ [lst]) t = init ++ [lst ++ [t]].
Proof.
  unfold pushToLast. rewrite length_app. cbn [length].
  replace (length init + 1 - 1)%nat with (length init) by lia.
  rewrite alter_app_r_alt by lia. now rewrite Nat.sub_diag.
Qed.

Lemma groupStep_snoc v (init : list (list Task)) lst i cur prev :
  v !! i = Some cur -> v !! (i - 1)%nat = Some prev ->
  groupStep v (init ++ [lst]) i =
  if negb (id cur - id prev =? 1)
  then (init ++ [lst]) ++ [[cur]]
  else init ++ [lst ++ [cur]].
Proof.
  intros Hc Hp. unfold groupStep. rewrite Hc, Hp.
  destruct (negb (id cur - id prev =? 1)).
  - apply (pushToLast_snoc (init ++ [lst]) [] cur).
  - apply pushToLast_snoc.
Qed.

Lemma groupLoop_groupFrom (v : list Task) rest :
  forall k init lst prev,
    v !! k = Some prev -> drop (S k) v = rest ->
    foldl (groupStep v) (init ++ [lst]) (seq (S k) (length rest))
    = init ++ groupFrom lst prev rest.
Proof.
  induction rest as [|cur rest IH]; intros k init lst prev Hprev Hdrop.
  - reflexivity.
  - cbn [length seq foldl groupFrom].
    assert (Hcur : v !! S k = Some cur).
    { pose proof (lookup_drop v (S k) 0) as H. rewrite Hdrop in H. cbn in H.
      now rewrite Nat.add_0_r in H. }
    assert (Hrest : drop (S (S k)) v = rest).
    { replace (S (S k)) with (S k + 1)%nat by lia.
      rewrite <- drop_drop, Hdrop. reflexivity. }
    rewrite (groupStep_snoc v init lst (S k) cur prev Hcur)
      by (cbn; now rewrite Nat.sub_0_r).
    destruct (negb (id cur - id prev =? 1)).
    + rewrite (IH (S k) (init ++ [lst]) [cur] cur Hcur Hrest).
      now rewrite <- app_assoc.
    + apply (IH (S k) init (lst ++ [cur]) cur Hcur Hrest).
Qed.

(** With two or more tasks the loop of lines 188-194 is the recursion that
    starts from an empty sequence and the first task as predecessor. *)
Lemma groupSeqs_groupFrom t0 t1 rest :
  groupSeqs (t0 :: t1 :: rest) = groupFrom [] t0 (t1 :: rest).
Proof.
  unfold groupSeqs.
  replace (length (t0 :: t1 :: rest) - 1)%nat with (length (t1 :: rest))
    by (cbn [length]; lia).
  apply (groupLoop_groupFrom (t0 :: t1 :: rest) (t1 :: rest) 0 [] [] t0); reflexivity.
Qed.

Lemma consecutive_snoc s prev cur :
  consecutive s -> (s = [] \/ (last s = Some prev /\ id cur - id prev = 1)) ->
  consecutive (s ++ [cur]).
Proof.
  intros Hs Hlast i a b Ha Hb.
  destruct (decide (S i < length s)%nat) as [Hlt|Hge].
  - rewrite lookup_app_l in Ha by lia. rewrite lookup_app_l in Hb by lia. eauto.
  - assert (Hlen : (S i < length (s ++ [cur]))%nat) by (eapply lookup_lt_Some; eauto).
    rewrite length_app in Hlen. cbn in Hlen.
    assert (Hi : S i = length s) by lia.
    rewrite lookup_app_r in Hb by lia. rewrite Hi, Nat.sub_diag in Hb.
    injection Hb as <-.
    rewrite lookup_app_l in Ha by lia.
    destruct Hlast as [->|[Hl Hid]]; [discriminate|].
    rewrite last_lookup in Hl. replace (pred (length s)) with i in Hl by lia.
    congruence.
Qed.

Lemma consecutive_nil : consecutive [].
Proof. intros i a b H. discriminate. Qed.

Lemma consecutive_one t : consecutive [t].
Proof. intros [|i] a b Ha Hb; discriminate. Qed.

Lemma groupFrom_consecutive rest :
  forall lst prev,
    consecutive lst -> (lst = [] \/ last lst = Some prev) ->
    Forall consecutive (groupFrom lst prev rest).
Proof.
  induction rest as [|cur rest IH]; intros lst prev Hc Hl; cbn.
  - now repeat constructor.
  - destruct (id cur - id prev =? 1) eqn:Hd; cbn.
    + apply Z.eqb_eq in Hd. apply IH.
      * apply (consecutive_snoc lst prev cur Hc). tauto.
      * right. apply last_snoc.
    + constructor; [assumption|]. apply IH; [apply consecutive_one|now right].
Qed.

Lemma groupFrom_concat rest :
  forall lst prev, concat (groupFrom lst prev rest) = lst ++ rest.
Proof.
  induction rest as [|cur rest IH]; intros lst prev; cbn.
  - now rewrite app_nil_r.
  - destruct (negb (id cur - id prev =? 1)); cbn; rewrite IH.
    + reflexivity.
    + now rewrite <- app_assoc.
Qed.

Lemma groupFrom_nonempty rest :
  forall lst prev, lst <> [] -> Forall (fun s => s <> []) (groupFrom lst prev rest).
Proof.
  induction rest as [|cur rest IH]; intros lst prev Hne; cbn.
  - now repeat constructor.
  - destruct (negb (id cur - id prev =? 1)).
    + constructor; [assumption|]. now apply IH.
    + apply IH. intros H. now apply app_eq_nil in H as [_ H].
Qed.

Lemma groupFrom_tail_nonempty rest :
  forall lst prev, Forall (fun s => s <> []) (drop 1 (groupFrom lst prev rest)).
Proof.
  induction rest as [|cur rest IH]; intros lst prev; cbn.
  - constructor.
  - destruct (negb (id cur - id prev =? 1)).
    + cbn. now apply groupFrom_nonempty.
    + apply IH.
Qed.

Lemma groupFrom_first rest :
  forall lst prev, exists more tl, groupFrom lst prev rest = (lst ++ more) :: tl.
Proof.
  induction rest as [|cur rest IH]; intros lst prev; cbn.
  - exists [], []. now rewrite app_nil_r.
  - destruct (negb (id cur - id prev =? 1)).
    + exists [], (groupFrom [cur] cur rest). now rewrite app_nil_r.
    + destruct (IH (lst ++ [cur]) cur) as (more & tl & E).
      exists (cur :: more), tl. rewrite E, <- app_assoc. reflexivity.
Qed.

Lemma groupFrom_maximal rest :
  forall lst prev, (lst = [] \/ last lst = Some prev) ->
  forall j s s' a b,
    groupFrom lst prev rest !! j = Some s ->
    groupFrom lst prev rest !! S j = Some s' ->
    last s = Some a -> head s' = Some b -> id b - id a <> 1.
Proof.
  induction rest as [|cur rest IH]; intros lst prev Hl j s s' a b; cbn.
  - intros _ H. discriminate.
  - destruct (id cur - id prev =? 1) eqn:Hd; cbn.
    + apply IH. right. apply last_snoc.
    + apply Z.eqb_neq in Hd. destruct j as [|j]; cbn.
      * intros Hs Hs' Ha Hb. injection Hs as <-.
        destruct (groupFrom_first rest [cur] cur) as (more & tl & E).
        rewrite E in Hs'. injection Hs' as <-. cbn in Hb. injection Hb as <-.
        destruct Hl as [->|Hl]; [discriminate|]. congruence.
      * apply IH. right. reflexivity.
Qed.

(** X9.  What the grouping does produce: every sequence is a run of ids that
    go up by exactly one, a run ends only where the next id does not follow,
    every sequence after the first holds at least one task, and the
    sequences laid end to end are the surviving video tasks in order, all of
    them when there is exactly one and all but the first otherwise. *)
Theorem groupSeqs_runs (v : list Task) :
  Forall consecutive (groupSeqs v) /\
  (forall j s s' a b,
     groupSeqs v !! j = Some s -> groupSeqs v !! S j = Some s' ->
     last s = Some a -> head s' = Some b -> id b - id a <> 1) /\
  Forall (fun s => s <> []) (drop 1 (groupSeqs v)) /\
  concat (groupSeqs v) = match v with [_] => v | _ => drop 1 v end.
Proof.
  destruct v as [|t0 [|t1 rest]].
  - cbn. repeat split; repeat constructor; try apply consecutive_nil.
    intros j s s' a b _ H. discriminate.
  - cbn. repeat split; repeat constructor; try apply consecutive_one.
    intros j s s' a b _ H. discriminate.
  - rewrite groupSeqs_groupFrom. repeat split.
    + apply groupFrom_consecutive; [apply consecutive_nil|now left].
    + apply groupFrom_maximal. now left.
    + apply groupFrom_tail_nonempty.
    + apply groupFrom_concat.
Qed.

(** ** The report of the sequences *)

Lemma report_loop_nonempty (seqs : list (list Task)) :
  Forall (fun s => s <> []) seqs ->
  forall i st,
    snd (forEachFrom i seqs (fun i s =>
           a <- idOf (head s) ;;
           b <- idOf (last s) ;;
           logger info (MsgOutputRange (Z.of_nat i + 1) a b)) st) = Normal tt.
Proof.
  induction 1 as [|s seqs Hs Hrest IH]; intros i st; cbn [forEachFrom].
  - reflexivity.
  - destruct s as [|t s]; [congruence|].
    destruct (last (t :: s)) as [u|] eqn:Hlast; [|now apply last_None in Hlast].
    unfold bind at 1. cbn [head idOf]. unfold bind at 2 3, ret, logger, emit.
    cbv beta iota. apply IH.
Qed.

Lemma leadingGap_groupSeqs kept :
  if leadingGap kept
  then exists tl, groupSeqs kept = [] :: tl /\ tl <> []
  else (length (groupSeqs kept) <= 1)%nat \/ Forall (fun s => s <> []) (groupSeqs kept).
Proof.
  destruct kept as [|t0 [|t1 rest]]; cbn [leadingGap].
  - left. cbn. lia.
  - left. cbn. lia.
  - rewrite groupSeqs_groupFrom. cbn [groupFrom].
    destruct (negb (id t1 - id t0 =? 1)).
    + eexists. split; [reflexivity|].
      destruct (groupFrom_first rest [t1] t1) as (more & tl & E).
      rewrite E. discriminate.
    + right. apply groupFrom_nonempty. discriminate.
Qed.

(** X10.  When the surviving video tasks start with two ids that are not
    consecutive, the report of the sequences reads the first task of an
    empty sequence: a [TypeError] leaves [beforeExit] right after the first
    message, before any merge and before [clean].  In every other case the
    report completes. *)
Theorem report_fails_on_leading_gap (env : Env) (v a : list Task) (st : Finalizing) :
  let kept := fst (orphanFilter (audioIdFlags a) v) in
  snd (report (groupSeqs kept) st)
    = (if leadingGap kept then Throws TypeError else Normal tt) /\
  (leadingGap kept = true ->
   reassemble env v a st =
   (mkFinalizing (this st) (effects st ++ [Log info MsgDiscontinuous]),
    Throws TypeError)).
Proof.
  intros kept.
  pose proof (leadingGap_groupSeqs kept) as Hshape.
  assert (Hgap : leadingGap kept = true ->
            report (groupSeqs kept) st =
            (mkFinalizing (this st) (effects st ++ [Log info MsgDiscontinuous]),
             Throws TypeError)).
  { intros Hg. rewrite Hg in Hshape. destruct Hshape as (tl & E & Hne).
    rewrite E. unfold report. destruct tl as [|s tl]; [congruence|].
    cbn [length Nat.ltb Nat.leb when forEachFrom].
    rewrite (bind_normal _ _ _ _ _ (logger_eq _ _ _)).
    reflexivity. }
  split.
  - destruct (leadingGap kept) eqn:Hg; [now rewrite Hgap|].
    unfold report. destruct Hshape as [Hlen|Hne].
    + destruct (groupSeqs kept) as [|s [|s' tl]]; cbn in Hlen; try lia; reflexivity.
    + destruct (Nat.ltb 1 (length (groupSeqs kept))); [|reflexivity].
      cbn [when]. rewrite (bind_normal _ _ _ _ _ (logger_eq _ _ _)).
      now apply report_loop_nonempty.
  - intros Hg. unfold reassemble.
    pose proof (orphanFilter_dropCounter (audioIdFlags a) v) as Hd.
    fold kept in Hgap. unfold kept in *.
    destruct (orphanFilter (audioIdFlags a) v) as [k d]. cbn [fst snd] in *. subst d.
    cbn [Z.ltb Z.compare when].
    rewrite (bind_normal (ret tt) _ _ _ _ eq_refl).
    now rewrite (bind_throws _ _ _ _ _ (Hgap Hg)).
Qed.

(** ** How [clean] ends *)

Lemma forEachFrom_logger (f : OutputItem -> Message) items k st :
  forEachFrom k items (fun _ item => logger info (f item)) st =
  (mkFinalizing (this st) (effects st ++ map (fun item => Log info (f item)) items),
   Normal tt).
Proof.
  revert k st. induction items as [|item items IH]; intros k st; cbn [forEachFrom map].
  - rewrite app_nil_r. now destruct st.
  - rewrite (bind_normal _ _ _ _ _ (logger_eq _ _ _)), IH.
    cbn [this effects]. now rewrite <- app_assoc.
Qed.

Lemma reportOutputs_eq items st :
  reportOutputs items st =
  (mkFinalizing (this st) (effects st ++ outputReport items), Normal tt).
Proof.
  unfold reportOutputs, outputReport. destruct items as [|i1 [|i2 items]].
  - cbn. rewrite app_nil_r. now destruct st.
  - reflexivity.
  - cbn [length Nat.ltb Nat.leb when].
    rewrite (bind_normal _ _ _ _ _ (logger_eq _ _ _)).
    rewrite (forEachFrom_logger
               (fun item => MsgOutputItem (description item) (path item))).
    cbn [this effects]. now rewrite <- app_assoc.
Qed.

(** X11.  [clean] ends the process in every case but one.  With temporary
    files kept it disconnects the observer, reports the output files (nothing
    for none, the resolved path for one, the list for several) and exits;
    otherwise it first announces and requests the deletion of the resolved
    working directory.  If that deletion is rejected, the exception leaves
    [clean] before the observer is disconnected and before [process.exit()].
    The object is never changed. *)
Theorem clean_outcome (env : Env) (st : Finalizing) :
  let o := this st in
  let dir := path_resolve [workDirectoryName o] in
  clean env st =
  if keepTemporaryFiles o then
    (mkFinalizing o (effects st ++ [ObserverDisconnect]
                       ++ outputReport (outputFiles o) ++ [ProcessExit]), Exits)
  else if ext_deleteDirectory env dir then
    (mkFinalizing o (effects st ++ [Log info MsgCleaning; DeleteDirectory dir;
                                    ObserverDisconnect]
                       ++ outputReport (outputFiles o) ++ [ProcessExit]), Exits)
  else
    (mkFinalizing o (effects st ++ [Log info MsgCleaning; DeleteDirectory dir]),
     Throws DeleteDirectoryRejected).
Proof.
  destruct st as [o tr]. cbn [this effects]. cbv zeta. unfold clean.
  rewrite (bind_normal getThis _ _ _ _ eq_refl). cbn [this].
  unfold deleteDirectory.
  destruct (keepTemporaryFiles o); cbn [negb when].
  - rewrite (bind_normal (ret tt) _ _ _ _ eq_refl).
    rewrite (bind_normal (emit _) _ _ _ _ eq_refl).
    rewrite (bind_normal getThis _ _ _ _ eq_refl). cbn [this].
    rewrite (bind_normal _ _ _ _ _ (reportOutputs_eq _ _)).
    unfold process_exit. cbn [this effects]. now rewrite <- !app_assoc.
  - destruct (ext_deleteDirectory env (path_resolve [workDirectoryName o])).
    + erewrite bind_normal by reflexivity.
      rewrite (bind_normal (emit _) _ _ _ _ eq_refl).
      rewrite (bind_normal getThis _ _ _ _ eq_refl). cbn [this effects].
      rewrite (bind_normal _ _ _ _ _ (reportOutputs_eq _ _)).
      unfold process_exit. cbn [this effects]. now rewrite <- !app_assoc.
    + erewrite bind_throws by reflexivity.
      cbn [this effects]. now rewrite <- !app_assoc.
Qed.

(** ** What finalize can emit and how it leaves the object *)

Lemma emits_ret {A} I P (a : A) (Q : A -> Prop) : Q a -> emits I P (ret a) Q.
Proof.
  intros Hq st Hi. exists []. cbn. rewrite app_nil_r.
  repeat split; try assumption; [constructor|]. now intros ? [= <-].
Qed.

Lemma emits_getThis I P : emits I P getThis I.
Proof.
  intros st Hi. exists []. cbn. rewrite app_nil_r.
  repeat split; try assumption; [constructor|]. now intros ? [= <-].
Qed.

Lemma emits_emit I (P : Effect -> Prop) e : P e -> emits I P (emit e) (fun _ => True).
Proof.
  intros Hp st Hi. exists [e]. cbn. repeat split; try assumption.
  constructor; [assumption|constructor].
Qed.

Lemma emits_throw {A} I P e (Q : A -> Prop) : emits I P (throw e) Q.
Proof.
  intros st Hi. exists []. cbn. rewrite app_nil_r.
  repeat split; try assumption; [constructor|]. discriminate.
Qed.

Lemma emits_process_exit {A} I (P : Effect -> Prop) (Q : A -> Prop) :
  P ProcessExit -> emits I P process_exit Q.
Proof.
  intros Hp st Hi. exists [ProcessExit]. cbn. repeat split; try assumption.
  - constructor; [assumption|constructor].
  - discriminate.
Qed.

Lemma emits_modifyThis (I : LiveDownloader -> Prop) P f :
  (forall o, I o -> I (f o)) -> emits I P (modifyThis f) (fun _ => True).
Proof.
  intros Hf st Hi. exists []. cbn. rewrite app_nil_r.
  repeat split; [constructor|now apply Hf].
Qed.

Lemma emits_bind {A B} I P (c : M A) (k : A -> M B) Q R :
  emits I P c Q -> (forall a, Q a -> emits I P (k a) R) -> emits I P (bind c k) R.
Proof.
  intros Hc Hk st Hi. destruct (Hc st Hi) as (n1 & E1 & F1 & I1 & Q1).
  unfold bind. destruct (c st) as [st' [a| |e]]; cbn [fst snd] in *.
  - destruct (Hk a (Q1 a eq_refl) st' I1) as (n2 & E2 & F2 & I2 & Q2).
    exists (n1 ++ n2). rewrite E2, E1, app_assoc.
    repeat split; try assumption. apply Forall_app. now split.
  - exists n1. repeat split; try assumption. discriminate.
  - exists n1. repeat split; try assumption. discriminate.
Qed.

Lemma emits_try_catch {A} I P (body : M A) (handler : Exn -> M A) Q :
  emits I P body Q -> (forall e, emits I P (handler e) Q) ->
  emits I P (try_catch body handler) Q.
Proof.
  intros Hb Hh st Hi. destruct (Hb st Hi) as (n1 & E1 & F1 & I1 & Q1).
  unfold try_catch. destruct (body st) as [st' [a| |e]]; cbn [fst snd] in *.
  - exists n1. repeat split; assumption.
  - exists n1. repeat split; try assumption.
  - destruct (Hh e st' I1) as (n2 & E2 & F2 & I2 & Q2).
    exists (n1 ++ n2). rewrite E2, E1, app_assoc.
    repeat split; try assumption. apply Forall_app. now split.
Qed.

Lemma emits_when I P b c :
  emits I P c (fun _ => True) -> emits I P (when b c) (fun _ => True).
Proof. destruct b; [trivial|]. intros _. now apply emits_ret. Qed.

Lemma emits_forEachFrom {A} I P (body : nat -> A -> M unit) (a : list A) i :
  (forall j x, emits I P (body j x) (fun _ => True)) ->
  emits I P (forEachFrom i a body) (fun _ => True).
Proof.
  intros H. revert i. induction a as [|x a IH]; intros i; cbn.
  - now apply emits_ret.
  - eapply emits_bind; [apply H|]. intros _ _. apply IH.
Qed.

Lemma emits_weaken {A} I P (c : M A) (Q : A -> Prop) :
  emits I P c Q -> emits I P c (fun _ => True).
Proof.
  intros H st Hi. destruct (H st Hi) as (n & E & F & Hi' & _).
  exists n. repeat split; assumption.
Qed.

Section FinalizeFrame.

Variable env : Env.
Variable I : LiveDownloader -> Prop.
Variable P : Effect -> Prop.

Hypothesis I_pushOutputFile :
  forall o item, I o -> I (set_outputFiles (outputFiles o ++ [item]) o).
Hypothesis P_log : forall lvl msg, lvl <> warning -> P (Log lvl msg).
Hypothesis P_mergeFiles : forall files output, P (MergeFiles files output).
Hypothesis P_writeFileSync : forall file data, P (WriteFileSync file data).
Hypothesis P_runMuxer : forall output v a, P (RunMuxer output v a).
Hypothesis P_disconnect : P ObserverDisconnect.
Hypothesis P_exit : P ProcessExit.
Hypothesis P_deleteDirectory :
  forall o, I o -> keepTemporaryFiles o = false ->
    P (DeleteDirectory (path_resolve [workDirectoryName o])).

Lemma emits_logger lvl msg :
  lvl <> warning -> emits I P (logger lvl msg) (fun _ => True).
Proof. intros H. apply emits_emit. now apply P_log. Qed.

Lemma emits_idOf t : emits I P (idOf t) (fun _ => True).
Proof. destruct t; [now apply emits_ret|apply emits_throw]. Qed.

Lemma emits_runMuxer output v a :
  emits I P (runMuxer env output v a) (fun _ => True).
Proof.
  unfold runMuxer. eapply emits_bind; [apply emits_emit, P_runMuxer|].
  intros _ _. destruct (ext_muxer env output v a);
    [now apply emits_ret|apply emits_throw].
Qed.

Lemma emits_mergeFiles files output :
  emits I P (mergeFiles env files output) (fun _ => True).
Proof.
  unfold mergeFiles. eapply emits_bind; [apply emits_emit, P_mergeFiles|].
  intros _ _. destruct (ext_mergeFiles env files output);
    [now apply emits_ret|apply emits_throw].
Qed.

Lemma emits_writeFileSync file data :
  emits I P (writeFileSync env file data) (fun _ => True).
Proof.
  unfold writeFileSync. eapply emits_bind; [apply emits_emit, P_writeFileSync|].
  intros _ _. destruct (ext_writeFileSync env file data);
    [now apply emits_ret|apply emits_throw].
Qed.

Lemma emits_pushOutputFile item :
  emits I P (pushOutputFile item) (fun _ => True).
Proof. apply emits_modifyThis. intros o. apply I_pushOutputFile. Qed.

Lemma emits_catch_handler n e :
  emits I P (logger debug (MsgException e) ;; logger error (MsgMuxFailed n))
        (fun _ => True).
Proof.
  eapply emits_bind; [apply emits_logger; discriminate|].
  intros _ _. apply emits_logger. discriminate.
Qed.

Lemma emits_mergeLowLatency useSuffix i s :
  emits I P (mergeLowLatency env useSuffix i s) (fun _ => True).
Proof.
  unfold mergeLowLatency. eapply emits_bind; [apply emits_getThis|].
  intros o Ho. cbv zeta.
  eapply emits_bind; [apply emits_logger; discriminate|]. intros _ _.
  eapply emits_bind; [apply emits_mergeFiles|]. intros _ _.
  eapply emits_bind; [apply emits_logger; discriminate|]. intros _ _.
  eapply emits_bind; [apply emits_mergeFiles|]. intros _ _.
  eapply emits_bind; [apply emits_logger; discriminate|]. intros _ _.
  apply emits_try_catch; [|intros e; apply emits_catch_handler].
  eapply emits_bind.
  - unfold merge. eapply emits_bind; [apply emits_getThis|].
    intros o' _. apply emits_runMuxer.
  - intros filename _. apply emits_pushOutputFile.
Qed.

Lemma emits_mergeLists useSuffix i s :
  emits I P (mergeLists env useSuffix i s) (fun _ => True).
Proof.
  unfold mergeLists. eapply emits_bind; [apply emits_getThis|].
  intros o Ho. cbv zeta.
  eapply emits_bind; [apply emits_writeFileSync|]. intros _ _.
  eapply emits_bind; [apply emits_writeFileSync|]. intros _ _.
  apply emits_try_catch; [|intros e; apply emits_catch_handler].
  eapply emits_bind.
  - unfold mergeSequences. eapply emits_bind; [apply emits_getThis|].
    intros o' _. apply emits_runMuxer.
  - intros filename _.
    eapply emits_bind; [apply emits_idOf|]. intros a _.
    eapply emits_bind; [apply emits_idOf|]. intros b _.
    apply emits_pushOutputFile.
Qed.

Lemma emits_mergeAll seqs : emits I P (mergeAll env seqs) (fun _ => True).
Proof.
  unfold mergeAll. apply emits_forEachFrom. intros j s.
  eapply emits_bind; [apply emits_getThis|]. intros o _.
  destruct (isLowLatencyLiveStream o);
    [apply emits_mergeLowLatency|apply emits_mergeLists].
Qed.

Lemma emits_report seqs : emits I P (report seqs) (fun _ => True).
Proof.
  unfold report. apply emits_when.
  eapply emits_bind; [apply emits_logger; discriminate|]. intros _ _.
  apply emits_forEachFrom. intros j s.
  eapply emits_bind; [apply emits_idOf|]. intros a _.
  eapply emits_bind; [apply emits_idOf|]. intros b _.
  apply emits_logger. discriminate.
Qed.

Lemma emits_clean : emits I P (clean env) (fun _ => True).
Proof.
  unfold clean. eapply emits_bind; [apply emits_getThis|]. intros o Ho.
  eapply emits_bind with (Q := fun _ => True).
  { destruct (keepTemporaryFiles o) eqn:Hkeep; cbn [negb when].
    - now apply emits_ret.
    - eapply emits_bind; [apply emits_logger; discriminate|]. intros _ _.
      unfold deleteDirectory.
      eapply emits_bind; [apply emits_emit, P_deleteDirectory; assumption|].
      intros _ _. destruct (ext_deleteDirectory env _);
        [now apply emits_ret|apply emits_throw]. }
  intros _ _. eapply emits_bind; [apply emits_emit, P_disconnect|]. intros _ _.
  eapply emits_bind; [apply emits_getThis|]. intros o' _.
  eapply emits_bind with (Q := fun _ => True).
  { unfold reportOutputs. apply emits_when.
    destruct (outputFiles o') as [|i1 [|i2 items]].
    - eapply emits_bind; [apply emits_logger; discriminate|]. intros _ _.
      apply emits_forEachFrom. intros; apply emits_logger; discriminate.
    - apply emits_logger; discriminate.
    - eapply emits_bind; [apply emits_logger; discriminate|]. intros _ _.
      apply emits_forEachFrom. intros; apply emits_logger; discriminate. }
  intros _ _. now apply emits_process_exit.
Qed.

Lemma emits_reassemble v a : emits I P (reassemble env v a) (fun _ => True).
Proof.
  unfold reassemble.
  pose proof (orphanFilter_dropCounter (audioIdFlags a) v) as Hd.
  destruct (orphanFilter (audioIdFlags a) v) as [kept d]. cbn [snd] in Hd. subst d.
  cbn [Z.ltb Z.compare when].
  eapply emits_bind with (Q := fun _ => True); [now apply emits_ret|]. intros _ _.
  eapply emits_bind; [apply emits_report|]. intros _ _.
  eapply emits_bind; [apply emits_mergeAll|]. intros _ _.
  apply emits_clean.
Qed.

(** [beforeExit] from an object satisfying [I0]: the sort takes it to one
    satisfying [I], which everything after it keeps. *)
Lemma beforeExit_frame (I0 : LiveDownloader -> Prop) :
  (forall o, I0 o -> finishedTasks o = [] -> I o) ->
  (forall o, I0 o -> I (set_finishedTasks (sort_by_id (finishedTasks o)) o)) ->
  forall st, I0 (this st) ->
    exists new,
      effects (fst (beforeExit env st)) = effects st ++ new /\
      Forall P new /\
      I (this (fst (beforeExit env st))).
Proof.
  intros Hempty Hsort st H0. unfold beforeExit.
  rewrite (bind_normal _ _ _ _ _ (getThis_eq _)).
  destruct (Nat.eqb (length (finishedTasks (this st))) 0) eqn:Hlen.
  - assert (Hi : I (this st)).
    { apply Hempty; [assumption|]. apply Nat.eqb_eq in Hlen.
      now destruct (finishedTasks (this st)). }
    destruct (emits_clean st Hi) as (new & E & F & Hi' & _).
    exists new. repeat split; assumption.
  - rewrite (bind_normal (modifyThis _) _ _ _ _ eq_refl).
    set (st1 := mkFinalizing _ _).
    assert (Hi : I (this st1)) by (apply Hsort; assumption).
    assert (Hrest : emits I P
              (o <- getThis ;;
               let finishedVideoTasks := List.filter (isType video) (finishedTasks o) in
               let finishedAudioTasks := List.filter (isType audio) (finishedTasks o) in
               when (negb (Nat.eqb (length finishedVideoTasks)
                                   (length finishedAudioTasks)))
                 (logger error MsgChunkCountMismatch ;;
                  logger error (MsgTemporaryFilesAt (path_resolve [workDirectoryName o])) ;;
                  process_exit) ;;
               reassemble env finishedVideoTasks finishedAudioTasks)
              (fun _ => True)).
    { eapply emits_bind; [apply emits_getThis|]. intros o _. cbv zeta.
      eapply emits_bind.
      - apply emits_when.
        eapply emits_bind; [apply emits_logger; discriminate|]. intros _ _.
        eapply emits_bind; [apply emits_logger; discriminate|]. intros _ _.
        now apply emits_process_exit.
      - intros _ _. apply emits_reassemble. }
    destruct (Hrest st1 Hi) as (new & E & F & Hi' & _).
    exists new. repeat split; assumption.
Qed.

End FinalizeFrame.

(** X12.  Whatever the collaborators answer, the only directory [beforeExit]
    ever asks to delete is the resolved working directory, and it asks for
    no deletion at all when temporary files are to be kept. *)
Theorem only_working_directory_deleted (env : Env) (o : LiveDownloader)
    (tr : list Effect) :
  exists new,
    effects (fst (beforeExit env (mkFinalizing o tr))) = tr ++ new /\
    forall dir, In (DeleteDirectory dir) new ->
      keepTemporaryFiles o = false /\ dir = path_resolve [workDirectoryName o].
Proof.
  destruct (beforeExit_frame env
              (fun x => workDirectoryName x = workDirectoryName o /\
                        keepTemporaryFiles x = keepTemporaryFiles o)
              (fun e => forall dir, e = DeleteDirectory dir ->
                          keepTemporaryFiles o = false /\
                          dir = path_resolve [workDirectoryName o])
              ltac:(intros x item H; exact H)
              ltac:(discriminate) ltac:(discriminate) ltac:(discriminate)
              ltac:(discriminate) ltac:(discriminate) ltac:(discriminate)
              ltac:(intros x [Hw Hk] Hf dir [= <-]; split; congruence)
              (fun x => workDirectoryName x = workDirectoryName o /\
                        keepTemporaryFiles x = keepTemporaryFiles o)
              ltac:(intros x H _; exact H) ltac:(intros x H; exact H)
              (mkFinalizing o tr) (conj eq_refl eq_refl))
    as (new & E & F & _).
  exists new. split; [exact E|]. intros dir Hin.
  rewrite List.Forall_forall in F. exact (F _ Hin dir eq_refl).
Qed.

(** X13.  [beforeExit] never logs a warning: the message that counts the
    video chunks dropped for want of an audio chunk is never produced,
    however many were dropped. *)
Theorem no_warning_at_finalize (env : Env) (o : LiveDownloader) (tr : list Effect) :
  exists new,
    effects (fst (beforeExit env (mkFinalizing o tr))) = tr ++ new /\
    forall msg, ~ In (Log warning msg) new.
Proof.
  destruct (beforeExit_frame env (fun _ => True)
              (fun e => forall msg, e <> Log warning msg)
              ltac:(trivial)
              ltac:(intros lvl msg H msg' [= -> _]; now apply H)
              ltac:(discriminate) ltac:(discriminate) ltac:(discriminate)
              ltac:(discriminate) ltac:(discriminate) ltac:(discriminate)
              (fun _ => True) ltac:(trivial) ltac:(trivial)
              (mkFinalizing o tr) I)
    as (new & E & F & _).
  exists new. split; [exact E|]. intros msg Hin.
  rewrite List.Forall_forall in F. exact (F _ Hin msg eq_refl).
Qed.

(** X14.  All [beforeExit] does to the object, however it ends: the finished
    tasks are put in ascending id order, none added and none removed, and
    output items are appended to those already there.  The queue, the
    counters, the flags and the names stay as they were. *)
Theorem finalize_only_sorts_and_appends (env : Env) (o : LiveDownloader)
    (tr : list Effect) :
  let o' := this (fst (beforeExit env (mkFinalizing o tr))) in
  (exists added,
     o' = set_outputFiles (outputFiles o ++ added)
            (set_finishedTasks (sort_by_id (finishedTasks o)) o)) /\
  Permutation (finishedTasks o) (finishedTasks o') /\
  StronglySorted (fun a b => id a <= id b) (finishedTasks o').
Proof.
  intros o'.
  assert (H : exists added,
            o' = set_outputFiles (outputFiles o ++ added)
                   (set_finishedTasks (sort_by_id (finishedTasks o)) o)).
  { destruct (beforeExit_frame env
                (fun x => exists added,
                   x = set_outputFiles (outputFiles o ++ added)
                         (set_finishedTasks (sort_by_id (finishedTasks o)) o))
                (fun _ => True)
                ltac:(intros x item [added ->]; exists (added ++ [item]);
                      unfold set_outputFiles; cbn; now rewrite app_assoc)
                ltac:(intros; constructor) ltac:(intros; constructor)
                ltac:(intros; constructor) ltac:(intros; constructor)
                ltac:(intros; constructor) ltac:(intros; constructor)
                ltac:(intros; constructor)
                (fun x => x = o)
                ltac:(intros x -> Hf; exists []; destruct o; cbn in *; subst;
                      unfold set_outputFiles, set_finishedTasks; cbn;
                      now rewrite app_nil_r)
                ltac:(intros x ->; exists []; destruct o;
                      unfold set_outputFiles, set_finishedTasks; cbn;
                      now rewrite app_nil_r)
                (mkFinalizing o tr) eq_refl)
      as (new & _ & _ & Hi). exact Hi. }
  split; [exact H|]. destruct H as [added ->]. cbn. split.
  - apply sort_by_id_Permutation.
  - apply sort_by_id_sorted.
Qed.

(** ** Output file names *)

Lemma string_length_app (s t : string) :
  String.length (s +:+ t) = (String.length s + String.length t)%nat.
Proof.
  induction s as [|c s IH]; [reflexivity|].
  change (S (String.length (s +:+ t)) = S (String.length s + String.length t)).
  now rewrite IH.
Qed.

Lemma string_app_inv_r (t s1 s2 : string) : s1 +:+ t = s2 +:+ t -> s1 = s2.
Proof.
  revert s2. induction s1 as [|c1 s1 IH]; intros [|c2 s2] H.
  - reflexivity.
  - apply (f_equal String.length) in H. rewrite !string_length_app in H.
    cbn [String.length] in H. lia.
  - apply (f_equal String.length) in H. rewrite !string_length_app in H.
    cbn [String.length] in H. lia.
  - change (String c1 (s1 +:+ t) = String c2 (s2 +:+ t)) in H.
    injection H as -> H. f_equal. now apply IH.
Qed.

(** X15.  When several sequences are merged, no two of them are given the
    same output file name: the names handed to the muxer for two different
    iterations of the loop differ, so one output cannot replace another. *)
Theorem suffixed_output_names_differ (env : Env) (o : LiveDownloader) (i j : nat) :
  i <> j ->
  fst (fst (muxArgs env o true i)) <> fst (fst (muxArgs env o true j)).
Proof.
  intros Hne Heq. apply Hne. unfold muxArgs in Heq.
  destruct (isLowLatencyLiveStream o); cbn [fst] in Heq;
    unfold muxerOutputName in Heq;
    (replace (Z.of_nat i + 1 =? 0) with false in Heq by (symmetry; apply Z.eqb_neq; lia));
    (replace (Z.of_nat j + 1 =? 0) with false in Heq by (symmetry; apply Z.eqb_neq; lia));
    apply (inj (String.app (outputFilename o))) in Heq;
    apply string_app_inv_r in Heq;
    apply (inj (String.app "_")) in Heq;
    apply (inj pretty) in Heq; lia.
Qed.

Lemma suffixed_output_names_differ_witness :
  let o := atFinalize [] false in
  0%nat <> 1%nat /\
  fst (fst (muxArgs quietEnv o true 0)) = "live_1.mp4" /\
  fst (fst (muxArgs quietEnv o true 0)) <> fst (fst (muxArgs quietEnv o true 1)).
Proof.
  cbn zeta. split; [discriminate|]. split; [reflexivity|].
  apply suffixed_output_names_differ. discriminate.
Defined.

(** ** What the planner can schedule *)

Lemma groupSeqs_within (v : list Task) s t :
  In s (groupSeqs v) -> In t s -> In t v.
Proof.
  intros Hs Ht.
  assert (Hc : In t (concat (groupSeqs v))) by (apply in_concat; eauto).
  destruct v as [|t0 [|t1 rest]].
  - cbn in Hc. destruct Hc.
  - cbn in Hc. exact Hc.
  - rewrite groupSeqs_groupFrom, groupFrom_concat in Hc. right. exact Hc.
Qed.

(** X16.  Every task [beforeExit] places in a sequence was downloaded in both
    tracks: it is a finished video task, and some finished audio task has
    its id. *)
Theorem planned_tasks_have_both_tracks (finished : list Task)
    (seqs : list (list Task)) (s : list Task) (t : Task) :
  plannedSeqs finished = Some seqs -> In s seqs -> In t s ->
  In t finished /\ type t = video /\
  exists u, In u finished /\ type u = audio /\ id u = id t.
Proof.
  unfold plannedSeqs. intros Hplan Hs Ht.
  destruct (Nat.eqb (length finished) 0); [discriminate|].
  destruct (negb _); [discriminate|]. injection Hplan as <-.
  apply (groupSeqs_within _ _ _ Hs) in Ht.
  rewrite orphanFilter_kept in Ht. apply filter_In in Ht as [Hv Hflag].
  apply filter_In in Hv as [Hin Hty]. rewrite sort_by_id_In in Hin.
  apply isType_true in Hty. apply flagAt_audioIdFlags in Hflag.
  apply in_map_iff in Hflag as (u & Hid & Hu).
  apply filter_In in Hu as [Hu Htu]. rewrite sort_by_id_In in Hu.
  apply isType_true in Htu. eauto 10.
Qed.

Lemma planned_tasks_have_both_tracks_witness :
  let finished := chunks video [1; 2; 4] ++ chunks audio [1; 2; 3] in
  let t := newTask "kkr_download_0" video (2, EmptyString) in
  plannedSeqs finished = Some [[t]] /\
  In t finished /\ type t = video /\
  exists u, In u finished /\ type u = audio /\ id u = id t.
Proof.
  cbn zeta. split; [vm_compute; reflexivity|].
  apply (planned_tasks_have_both_tracks
           (chunks video [1; 2; 4] ++ chunks audio [1; 2; 3])
           [[newTask "kkr_download_0" video (2, EmptyString)]]
           [newTask "kkr_download_0" video (2, EmptyString)]
           (newTask "kkr_download_0" video (2, EmptyString))).
  - vm_compute. reflexivity.
  - left. reflexivity.
  - left. reflexivity.
Defined.
